(** * Temperature converter (task 3/converter-script.js)

    A shallow embedding of the converter script and the properties of its
    conversion and validation logic.

    - JavaScript numbers are IEEE 754 binary64 values.  They are modelled
      with [spec_float] of the Standard Library (precision 53, maximal
      exponent 1024, round to nearest even), so every arithmetic step of
      the script can be evaluated inside Rocq.  What the operations of
      [spec_float] compute is proved here from their definitions: each
      rounds the exact result to nearest ([Rounds]), which gives the
      monotonicity and the error bounds the properties need.
    - The arithmetic of the script is written once, over an interface
      [Number], and instantiated twice: at binary64 (what the script
      computes) and at [Q] (the same formulas in exact arithmetic).
    - JavaScript strings are modelled by [string], holding the UTF-8
      encoding of the text.
    - The part of the page the script touches is a record [Page];
      [convertTemperature] is a state transformer on it. *)

From Stdlib Require Import ZArith QArith Qround Qabs Qpower.
From Stdlib Require Import String Ascii List Bool Lia Lqa.
From Stdlib Require Import Floats.SpecFloat.
Import ListNotations.

Open Scope Z_scope.

(** ** Numbers *)

(** The operations the script applies to numbers.  [literal m e] is the
    value of a decimal numeric literal with digits [m] and decimal exponent
    [e], i.e. [m * 10 ^ e]; [Math_round] is the built-in [Math.round]. *)
Class Number (N : Type) : Type := {
  num_add : N -> N -> N;
  num_sub : N -> N -> N;
  num_mul : N -> N -> N;
  num_div : N -> N -> N;
  literal : Z -> Z -> N;
  Math_round : N -> N
}.

Declare Scope num_scope.
Delimit Scope num_scope with num.
Infix "+" := num_add : num_scope.
Infix "-" := num_sub : num_scope.
Infix "*" := num_mul : num_scope.
Infix "/" := num_div : num_scope.

(** *** binary64 *)

Module B64.

Definition prec : Z := 53.
Definition emax : Z := 1024.

Definition number : Type := spec_float.

Definition add : number -> number -> number := SFadd prec emax.
Definition sub : number -> number -> number := SFsub prec emax.
Definition mul : number -> number -> number := SFmul prec emax.
Definition div : number -> number -> number := SFdiv prec emax.

Definition NaN : number := S754_nan.
Definition Infinity : number := S754_infinity false.

(** The binary64 value nearest to [(-1)^s * M * 10 ^ E], for [0 <= M]:
    an integer is rounded directly, a proper fraction [M / 10 ^ (- E)]
    through the quotient, the remainder deciding the rounding bits. *)
Definition of_decimal (s : bool) (M E : Z) : number :=
  match M with
  | Z0 => S754_zero s
  | Zpos m =>
      if 0 <=? E
      then binary_round prec emax s (m * Z.to_pos (10 ^ E)) 0
      else
        let '(q, e, l) :=
          SFdiv_core_binary prec emax (Zpos m) 0 (10 ^ (- E)) 0 in
        binary_round_aux prec emax s q e l
  | Zneg _ => NaN
  end.

(** A numeric literal of the script. *)
Definition lit (m e : Z) : number :=
  of_decimal (m <? 0) (Z.abs m) e.

(** The global [isNaN], on a number. *)
Definition isNaN (x : number) : bool :=
  match x with S754_nan => true | _ => false end.

Definition is_finite (x : number) : bool :=
  match x with
  | S754_zero _ | S754_finite _ _ _ => true
  | _ => false
  end.

(** [Math.round]: NaN, the infinities and the integers (both zeros
    among them) are returned as they are; any other [x] becomes
    [floor (x + 1/2)], the nearest integer with a tie going towards
    +Infinity, and a zero result keeps the sign of [x]. *)
Definition round_half_up (s : bool) (m : positive) (e : Z) : Z :=
  (2 * cond_Zopp s (Zpos m) + 2 ^ (- e)) / 2 ^ (- e + 1).

Definition round (x : number) : number :=
  match x with
  | S754_finite s m e =>
      if 0 <=? e then x
      else
        match round_half_up s m e with
        | Z0 => S754_zero s
        | n => binary_normalize prec emax n 0 false
        end
  | _ => x
  end.

(** The exact value of a number; NaN and the infinities have none. *)
Definition to_Q (x : number) : Q :=
  match x with
  | S754_finite s m e =>
      if 0 <=? e then inject_Z (cond_Zopp s (Zpos m) * 2 ^ e)
      else Qmake (cond_Zopp s (Zpos m)) (Z.to_pos (2 ^ (- e)))
  | _ => 0%Q
  end.

(** Comparison of numbers, as [<] and [<=] of the language. *)
Definition ltb : number -> number -> bool := SFltb.
Definition leb : number -> number -> bool := SFleb.

End B64.

#[export] Instance binary64 : Number B64.number := {
  num_add := B64.add;
  num_sub := B64.sub;
  num_mul := B64.mul;
  num_div := B64.div;
  literal := B64.lit;
  Math_round := B64.round
}.

(** *** Exact arithmetic *)

Module Exact.

Definition lit (m e : Z) : Q :=
  if 0 <=? e then inject_Z (m * 10 ^ e)
  else Qmake m (Z.to_pos (10 ^ (- e))).

Definition round (x : Q) : Q := inject_Z (Qfloor (x + (1 # 2))%Q).

End Exact.

#[export] Instance exact : Number Q := {
  num_add := Qplus;
  num_sub := Qminus;
  num_mul := Qmult;
  num_div := Qdiv;
  literal := Exact.lit;
  Math_round := Exact.round
}.

(** ** Temperature conversion logic *)

Section Conversion.

Context {N : Type} `{Number N}.

Local Open Scope num_scope.
Local Open Scope string_scope.

Definition n5 : N := literal 5 0.
Definition n9 : N := literal 9 0.
Definition n32 : N := literal 32 0.
Definition n100 : N := literal 100 0.
Definition n273_15 : N := literal 27315 (-2).

(** Convert any temperature TO Celsius. *)
Definition convertToCelsius (value : N) (unit : string) : N :=
  if unit =? "celsius" then value
  else if unit =? "fahrenheit" then (value - n32) * n5 / n9
  else if unit =? "kelvin" then value - n273_15
  else value.

(** Convert FROM Celsius to any temperature unit. *)
Definition convertFromCelsius (celsius : N) (unit : string) : N :=
  if unit =? "celsius" then celsius
  else if unit =? "fahrenheit" then (celsius * n9 / n5) + n32
  else if unit =? "kelvin" then celsius + n273_15
  else celsius.

(** Convert temperature from one unit to another, through Celsius. *)
Definition convertTo (value : N) (fromUnit toUnit : string) : N :=
  let celsius := convertToCelsius value fromUnit in
  let result := convertFromCelsius celsius toUnit in
  result.

(** [Math.round(result * 100) / 100], the rounding step of
    [convertTemperature]. *)
Definition round2 (result : N) : N :=
  Math_round (result * n100) / n100.

(** Conversion followed by the rounding step. *)
Definition convertRounded (value : N) (fromUnit toUnit : string) : N :=
  round2 (convertTo value fromUnit toUnit).

End Conversion.

(** ** Strings and [parseFloat] *)

(** The built-in [parseFloat], after ECMAScript: it skips leading white
    space, reads the longest prefix that is a decimal literal and returns
    the binary64 value nearest to it (for a literal of more than 20
    significant digits the standard also allows a neighbour of that value;
    the engines return the nearest). *)
Module JS.

Definition code (c : ascii) : Z := Z.of_N (N_of_ascii c).

(** White space and line terminators, which [parseFloat] skips at the
    start of its argument, by the length of their UTF-8 encoding:
    TAB, LF, VT, FF, CR and SP; U+00A0; U+1680, U+2000 to U+200A, U+2028,
    U+2029, U+202F, U+205F, U+3000 and U+FEFF. *)
Definition is_space1 (a : ascii) : bool :=
  ((9 <=? code a) && (code a <=? 13)) || (code a =? 32).

Definition is_space2 (a b : ascii) : bool :=
  (code a =? 194) && (code b =? 160).

Definition is_space3 (a b c : ascii) : bool :=
  ((code a =? 225) && (code b =? 154) && (code c =? 128))
  || ((code a =? 226) && (code b =? 128)
      && (((128 <=? code c) && (code c <=? 138))
          || (code c =? 168) || (code c =? 169) || (code c =? 175)))
  || ((code a =? 226) && (code b =? 129) && (code c =? 159))
  || ((code a =? 227) && (code b =? 128) && (code c =? 128))
  || ((code a =? 239) && (code b =? 187) && (code c =? 191)).

Fixpoint trimStart (s : string) : string :=
  match s with
  | String a s1 =>
      if is_space1 a then trimStart s1
      else
        match s1 with
        | String b s2 =>
            if is_space2 a b then trimStart s2
            else
              match s2 with
              | String c s3 =>
                  if is_space3 a b c then trimStart s3 else s
              | EmptyString => s
              end
        | EmptyString => s
        end
  | EmptyString => s
  end.

Definition is_digit (c : ascii) : bool :=
  (48 <=? code c) && (code c <=? 57).

(** The longest run of decimal digits at the start of [s]: the value of
    the digits read after [acc], how many were read on top of [n], and
    the rest of the string. *)
Fixpoint scan_digits (s : string) (acc n : Z) : Z * Z * string :=
  match s with
  | String c s' =>
      if is_digit c then scan_digits s' (10 * acc + (code c - 48)) (n + 1)
      else (acc, n, s)
  | EmptyString => (acc, n, s)
  end.

(** The value of an exponent part at the start of [s]: an exponent
    indicator, an optional sign and at least one digit; 0 when there is
    no exponent part. *)
Definition scan_exponent (s : string) : Z :=
  match s with
  | String c s1 =>
      if (code c =? 101) || (code c =? 69) then
        match s1 with
        | String "+" s2 =>
            let '(v, n, _) := scan_digits s2 0 0 in
            if n =? 0 then 0 else v
        | String "-" s2 =>
            let '(v, n, _) := scan_digits s2 0 0 in
            if n =? 0 then 0 else - v
        | _ =>
            let '(v, n, _) := scan_digits s1 0 0 in
            if n =? 0 then 0 else v
        end
      else 0
  | EmptyString => 0
  end.

(** The mathematical value of an unsigned literal: infinite, or
    [M * 10 ^ E]. *)
Inductive MV : Type :=
| MV_Infinity
| MV_decimal (M E : Z).

(** The longest prefix of [s] that is a [StrUnsignedDecimalLiteral]:
    [Infinity], digits with an optional fraction, or a fraction starting
    with the point, each of the last two with an optional exponent. *)
Definition scan_unsigned (s : string) : option MV :=
  if prefix "Infinity"%string s then Some MV_Infinity
  else
    let '(i, ni, r1) := scan_digits s 0 0 in
    match r1 with
    | String "." r2 =>
        let '(m, nf, r3) := scan_digits r2 i 0 in
        if (ni =? 0) && (nf =? 0) then None
        else Some (MV_decimal m (scan_exponent r3 - nf))
    | _ =>
        if ni =? 0 then None
        else Some (MV_decimal i (scan_exponent r1))
    end.

(** The longest prefix that is a [StrDecimalLiteral]: an optional sign
    and an unsigned literal. *)
Definition scan_literal (s : string) : option (bool * MV) :=
  match s with
  | String "+" r => option_map (pair false) (scan_unsigned r)
  | String "-" r => option_map (pair true) (scan_unsigned r)
  | _ => option_map (pair false) (scan_unsigned s)
  end.

Definition value_of (l : bool * MV) : B64.number :=
  match l with
  | (neg, MV_Infinity) => S754_infinity neg
  | (neg, MV_decimal M E) => B64.of_decimal neg M E
  end.

(** The global [parseFloat]: NaN unless the argument, after leading
    white space, starts with a decimal literal. *)
Definition parseFloat (s : string) : B64.number :=
  match scan_literal (trimStart s) with
  | Some l => value_of l
  | None => B64.NaN
  end.

End JS.

(** ** The main conversion function *)

Inductive ValidationError : Type :=
| InvalidNumber        (* 'Please enter a valid number' *)
| SameUnit.            (* 'Please select different input and output units' *)

Inductive Result : Type :=
| Converted (value : B64.number)
| Failed (e : ValidationError).

(** What [convertTemperature] decides between reading the form and writing
    the page, from the text of the input field and the two selected units:
    steps 1 to 3 and the rounding. *)
Definition convert (raw inputUnit outputUnit : string) : Result :=
  let temperatureValue := JS.parseFloat raw in
  if (raw =? "")%string || B64.isNaN temperatureValue then
    Failed InvalidNumber
  else if (inputUnit =? outputUnit)%string then
    Failed SameUnit
  else
    let result := convertTo temperatureValue inputUnit outputUnit in
    let result := round2 result in
    Converted result.

(** ** The page *)

(** A message element: its text and whether its class list holds ['show']. *)
Record Message : Type := {
  textContent : string;
  show : bool
}.

(** The state the script reads and writes: the text of the input field, the
    value of the checked radio button of each group (if one is checked),
    the two message elements and the text of the two result displays. *)
Record Page : Type := {
  temperatureInput : string;
  inputUnitChecked : option string;
  outputUnitChecked : option string;
  errorMessage : Message;
  successMessage : Message;
  inputDisplay : string;
  outputDisplay : string
}.

(** How a call ends: normally, or with the TypeError of reading [.value]
    of [null] when a radio group has no checked button. *)
Inductive Completion : Type :=
| Normal
| TypeError.

Section Script.

(** The conversion of a number to a string in a template literal. *)
Variable NumberToString : B64.number -> string.

Local Open Scope string_scope.

(** Get the symbol for a temperature unit. *)
Definition getUnitSymbol (unit : string) : string :=
  if unit =? "celsius" then "C"
  else if unit =? "fahrenheit" then "F"
  else if unit =? "kelvin" then "K"
  else "".

(** Display the conversion result in the result card. *)
Definition displayResult (inputValue : B64.number) (inputUnit : string)
    (outputValue : B64.number) (outputUnit : string) (page : Page) : Page :=
  let inputUnitDisplay := getUnitSymbol inputUnit in
  let outputUnitDisplay := getUnitSymbol outputUnit in
  {| temperatureInput := temperatureInput page;
     inputUnitChecked := inputUnitChecked page;
     outputUnitChecked := outputUnitChecked page;
     errorMessage := errorMessage page;
     successMessage := successMessage page;
     inputDisplay := NumberToString inputValue ++ "°" ++ inputUnitDisplay;
     outputDisplay := NumberToString outputValue ++ "°" ++ outputUnitDisplay |}.

(** Display error message to the user. *)
Definition showError (message : string) (page : Page) : Page :=
  {| temperatureInput := temperatureInput page;
     inputUnitChecked := inputUnitChecked page;
     outputUnitChecked := outputUnitChecked page;
     errorMessage := {| textContent := "❌ " ++ message; show := true |};
     successMessage := successMessage page;
     inputDisplay := inputDisplay page;
     outputDisplay := outputDisplay page |}.

(** Display success message to the user. *)
Definition showSuccess (message : string) (page : Page) : Page :=
  {| temperatureInput := temperatureInput page;
     inputUnitChecked := inputUnitChecked page;
     outputUnitChecked := outputUnitChecked page;
     errorMessage := errorMessage page;
     successMessage := {| textContent := "✓ " ++ message; show := true |};
     inputDisplay := inputDisplay page;
     outputDisplay := outputDisplay page |}.

(** Clear all error and success messages. *)
Definition clearMessages (page : Page) : Page :=
  {| temperatureInput := temperatureInput page;
     inputUnitChecked := inputUnitChecked page;
     outputUnitChecked := outputUnitChecked page;
     errorMessage := {| textContent := ""; show := false |};
     successMessage := {| textContent := ""; show := false |};
     inputDisplay := inputDisplay page;
     outputDisplay := outputDisplay page |}.

(** Main conversion function: gets the input values from the form,
    validates the temperature input, converts the temperature and
    displays the result or an error message. *)
Definition convertTemperature (page : Page) : Completion * Page :=
  let page := clearMessages page in
  let temperatureValue := JS.parseFloat (temperatureInput page) in
  match inputUnitChecked page with
  | None => (TypeError, page)
  | Some inputUnit =>
      match outputUnitChecked page with
      | None => (TypeError, page)
      | Some outputUnit =>
          if (temperatureInput page =? "") || B64.isNaN temperatureValue
          then (Normal, showError "Please enter a valid number" page)
          else if inputUnit =? outputUnit
          then (Normal,
                showError "Please select different input and output units"
                  page)
          else
            let result := convertTo temperatureValue inputUnit outputUnit in
            let result := round2 result in
            let page :=
              displayResult temperatureValue inputUnit result outputUnit
                page in
            (Normal, showSuccess "Temperature converted successfully!" page)
      end
  end.

(** What [convertTemperature] writes for each outcome of [convert]. *)
Definition render (raw inputUnit outputUnit : string) (r : Result)
    (page : Page) : Page :=
  match r with
  | Failed InvalidNumber => showError "Please enter a valid number" page
  | Failed SameUnit =>
      showError "Please select different input and output units" page
  | Converted result =>
      showSuccess "Temperature converted successfully!"
        (displayResult (JS.parseFloat raw) inputUnit result outputUnit page)
  end.


End Script.

(** ** The events of the page *)

Section Events.

Variable NumberToString : B64.number -> string.

Local Open Scope string_scope.

(** What happens on the page: the events the script listens to, and the
    user checking a radio button, to which it does not listen. *)
Inductive Event : Type :=
| Click                         (* 'click' on the convert button *)
| Keypress (key : string)       (* 'keypress' in the input field *)
| Input (value : string)        (* 'input': the field now holds [value] *)
| CheckInput (unit : string)    (* a button of the group 'input-unit' *)
| CheckOutput (unit : string).  (* a button of the group 'output-unit' *)

Definition setTemperatureInput (value : string) (page : Page) : Page :=
  {| temperatureInput := value;
     inputUnitChecked := inputUnitChecked page;
     outputUnitChecked := outputUnitChecked page;
     errorMessage := errorMessage page;
     successMessage := successMessage page;
     inputDisplay := inputDisplay page;
     outputDisplay := outputDisplay page |}.

Definition setInputUnit (unit : string) (page : Page) : Page :=
  {| temperatureInput := temperatureInput page;
     inputUnitChecked := Some unit;
     outputUnitChecked := outputUnitChecked page;
     errorMessage := errorMessage page;
     successMessage := successMessage page;
     inputDisplay := inputDisplay page;
     outputDisplay := outputDisplay page |}.

Definition setOutputUnit (unit : string) (page : Page) : Page :=
  {| temperatureInput := temperatureInput page;
     inputUnitChecked := inputUnitChecked page;
     outputUnitChecked := Some unit;
     errorMessage := errorMessage page;
     successMessage := successMessage page;
     inputDisplay := inputDisplay page;
     outputDisplay := outputDisplay page |}.

(** An event on the page: the change the browser makes to the form, then
    the listener the script has registered for the event, if any. *)
Definition dispatch (event : Event) (page : Page) : Completion * Page :=
  match event with
  | Click => convertTemperature NumberToString page
  | Keypress key =>
      if key =? "Enter" then convertTemperature NumberToString page
      else (Normal, page)
  | Input value => (Normal, clearMessages (setTemperatureInput value page))
  | CheckInput unit => (Normal, setInputUnit unit page)
  | CheckOutput unit => (Normal, setOutputUnit unit page)
  end.

(** A sequence of events, one after the other; a listener that throws
    ends that event only. *)
Definition dispatchAll (events : list Event) (page : Page) : Page :=
  fold_left (fun page event => snd (dispatch event page)) events page.

(** A page whose messages agree: not both shown, a hidden one empty, and
    the success message shown only when the field holds a number that
    the input display shows. *)
Definition tidy (page : Page) : Prop :=
  (show (errorMessage page) = true -> show (successMessage page) = false)
  /\ (show (errorMessage page) = false -> textContent (errorMessage page) = "")
  /\ (show (successMessage page) = false ->
      textContent (successMessage page) = "")
  /\ (show (successMessage page) = true ->
      temperatureInput page <> ""
      /\ B64.isNaN (JS.parseFloat (temperatureInput page)) = false
      /\ exists symbol : string,
           inputDisplay page
           = NumberToString (JS.parseFloat (temperatureInput page))
             ++ "°" ++ symbol).

End Events.

(** ** Notions of the specification *)

(** Rounding to 2 decimal places with a tie going away from zero, as the
    specification words it, on exact values. *)
Definition spec_round_half_away_from_zero (x : Q) : Q :=
  (if Qle_bool 0 x
   then inject_Z (Qfloor (x * 100 + (1 # 2))) / 100
   else - (inject_Z (Qfloor (- x * 100 + (1 # 2))) / 100))%Q.

(** The three units of the form. *)
Definition units : list string :=
  ["celsius"; "fahrenheit"; "kelvin"]%string.

(** The round trip of a value: from A to B and back, with the rounding step
    after each conversion. *)
Definition round_trip {N : Type} `{Number N} (v : N) (A B : string) : N :=
  convertRounded (convertRounded v A B) B A.

(** A string of decimal digits only. *)
Fixpoint all_digits (s : string) : bool :=
  match s with
  | String c s' => JS.is_digit c && all_digits s'
  | EmptyString => true
  end.

(** A text that cannot continue a run of digits into a longer literal:
    it is empty or starts with a character other than a digit, the point
    and the exponent indicators. *)
Definition stops_number (rest : string) : bool :=
  match rest with
  | String c _ =>
      negb (JS.is_digit c) && negb (JS.code c =? 46)
      && negb (JS.code c =? 101) && negb (JS.code c =? 69)
  | EmptyString => true
  end.

(** ** Notions of binary64 rounding *)

(** Powers of two and of ten, with any integer exponent. *)
Definition pow2 (e : Z) : Q := Qpower 2 e.
Definition pow10 (e : Z) : Q := Qpower 10 e.

(** A magnitude [q] with the sign [s]. *)
Definition sgn (s : bool) (q : Q) : Q := if s then (- q)%Q else q.

(** The value [v] counted in units of [2 ^ e]. *)
Definition scaled (v : Q) (e : Z) : Q := (v / pow2 e)%Q.

(** [located v e m l]: in units of [2 ^ e] the value [v] lies in
    [[m, m + 1)], at the place the location [l] names: on [m], below the
    middle, on the middle or above it. *)
Definition located (v : Q) (e m : Z) (l : location) : Prop :=
  (match l with
   | loc_Exact => scaled v e == inject_Z m
   | loc_Inexact Lt =>
       inject_Z m < scaled v e /\ scaled v e < inject_Z m + (1 # 2)
   | loc_Inexact Eq => scaled v e == inject_Z m + (1 # 2)
   | loc_Inexact Gt =>
       inject_Z m + (1 # 2) < scaled v e /\ scaled v e < inject_Z m + 1
   end)%Q.

Definition located_rec (v : Q) (e : Z) (mrs : shr_record) : Prop :=
  located v e (shr_m mrs) (loc_of_shr_record mrs).

(** [mag_of v k]: [2 ^ (k - 1) <= v < 2 ^ k]. *)
Definition mag_of (v : Q) (k : Z) : Prop :=
  (pow2 (k - 1) <= v /\ v < pow2 k)%Q.

(** The exponent of the binary64 values of magnitude [k]. *)
Definition fx (k : Z) : Z := fexp B64.prec B64.emax k.

(** The integer nearest to [x], the even one when two are as near. *)
Definition rne (x : Q) : Z :=
  let f := Qfloor x in
  match (x - inject_Z f ?= 1 # 2)%Q with
  | Lt => f
  | Eq => if Z.even f then f else f + 1
  | Gt => f + 1
  end.

(** The number with sign [s], mantissa [n] of at most 53 bits, or
    [2 ^ 53], and exponent [e]; an exponent above the largest is an
    infinity. *)
Definition pack (s : bool) (n e : Z) : spec_float :=
  match n with
  | Z0 => S754_zero s
  | Zpos p =>
      if Zpos (digits2_pos p) <=? 53
      then if e <=? 971 then S754_finite s p e else S754_infinity s
      else if e + 1 <=? 971 then S754_finite s (Pos.div2 p) (e + 1)
           else S754_infinity s
  | Zneg _ => S754_nan
  end.

(** The rounding of a positive value [v] of magnitude [k], with sign [s]. *)
Definition round_to (s : bool) (v : Q) (k : Z) : spec_float :=
  pack s (rne (scaled v (fx k))) (fx k).

(** [Rounds v r]: [r] is the binary64 rounding of the exact value [v], to
    nearest with ties to even, an overflow giving an infinity. *)
Definition Rounds (v : Q) (r : spec_float) : Prop :=
  (v == 0 /\ exists s : bool, r = S754_zero s)
  \/ (exists (s : bool) (k : Z),
        (0 < sgn s v)%Q /\ mag_of (sgn s v) k /\ r = round_to s (sgn s v) k).

Definition is_nonneg (r : B64.number) : bool :=
  match r with
  | S754_zero _ | S754_finite false _ _ | S754_infinity false => true
  | _ => false
  end.

Definition is_nonpos (r : B64.number) : bool :=
  match r with
  | S754_zero _ | S754_finite true _ _ | S754_infinity true => true
  | _ => false
  end.

(** A binary64 value other than NaN: [spec_float] has more finite
    inhabitants than binary64 has values, [valid_binary] keeps those with
    a canonical mantissa and exponent. *)
Definition good (x : B64.number) : Prop :=
  valid_binary B64.prec B64.emax x = true /\ B64.isNaN x = false.

(** A finite binary64 value. *)
Definition fin (x : B64.number) : Prop :=
  valid_binary B64.prec B64.emax x = true /\ B64.is_finite x = true.

(** An operation on numbers that keeps binary64 values other than NaN and
    keeps their order. *)
Definition monotone (f : B64.number -> B64.number) : Prop :=
  (forall x, good x -> good (f x))
  /\ (forall x y, good x -> good y -> B64.leb x y = true ->
                  B64.leb (f x) (f y) = true).

(** [approx x q d]: [x] is a finite binary64 value within [d] of [q]. *)
Definition approx (x : B64.number) (q d : Q) : Prop :=
  fin x /\ (q - d <= B64.to_Q x /\ B64.to_Q x <= q + d)%Q.

(** Values below [big], which is [2 ^ 40], round with an error of at most
    [eps], which is [2 ^ (-14)]. *)
Definition eps : Q := 1 # 16384.
Definition big : Q := 1099511627776.

(** * Properties *)

(** ** The conversion formulas *)

Section ConversionFacts.

Context {N : Type} `{Number N}.

Local Open Scope num_scope.
Local Open Scope string_scope.

Lemma convertToCelsius_celsius (v : N) :
  convertToCelsius v "celsius" = v.
Proof. reflexivity. Qed.

Lemma convertToCelsius_fahrenheit (v : N) :
  convertToCelsius v "fahrenheit" = (v - n32) * n5 / n9.
Proof. reflexivity. Qed.

Lemma convertToCelsius_kelvin (v : N) :
  convertToCelsius v "kelvin" = v - n273_15.
Proof. reflexivity. Qed.

Lemma convertFromCelsius_celsius (c : N) :
  convertFromCelsius c "celsius" = c.
Proof. reflexivity. Qed.

Lemma convertFromCelsius_fahrenheit (c : N) :
  convertFromCelsius c "fahrenheit" = c * n9 / n5 + n32.
Proof. reflexivity. Qed.

Lemma convertFromCelsius_kelvin (c : N) :
  convertFromCelsius c "kelvin" = c + n273_15.
Proof. reflexivity. Qed.

(** A unit that is none of the three falls to the default branch. *)
Lemma convertToCelsius_default (v : N) (unit : string) :
  ~ In unit units -> convertToCelsius v unit = v.
Proof.
  intros Hu. unfold convertToCelsius.
  destruct (String.eqb_spec unit "celsius") as [->|_]; [reflexivity|].
  destruct (String.eqb_spec unit "fahrenheit") as [->|_].
  { exfalso. apply Hu. simpl. auto. }
  destruct (String.eqb_spec unit "kelvin") as [->|_]; [|reflexivity].
  exfalso. apply Hu. simpl. auto.
Qed.

Lemma convertFromCelsius_default (c : N) (unit : string) :
  ~ In unit units -> convertFromCelsius c unit = c.
Proof.
  intros Hu. unfold convertFromCelsius.
  destruct (String.eqb_spec unit "celsius") as [->|_]; [reflexivity|].
  destruct (String.eqb_spec unit "fahrenheit") as [->|_].
  { exfalso. apply Hu. simpl. auto. }
  destruct (String.eqb_spec unit "kelvin") as [->|_]; [|reflexivity].
  exfalso. apply Hu. simpl. auto.
Qed.

(** C1: the conversion is Celsius-mediated with exactly the specified
    formulas.  [convertTo v from to] is
    [convertFromCelsius (convertToCelsius v from) to]; normalizing to
    Celsius is the identity for Celsius, [(F - 32) * 5 / 9] for Fahrenheit
    and [K - 273.15] for Kelvin; denormalizing is the identity for Celsius,
    [C * 9 / 5 + 32] for Fahrenheit and [C + 273.15] for Kelvin.  This
    holds for every value, validated or not, in both arithmetics. *)
Theorem convertTo_celsius_mediated (v : N) (fromUnit toUnit : string) :
  convertTo v fromUnit toUnit
  = convertFromCelsius (convertToCelsius v fromUnit) toUnit
  /\ convertToCelsius v "celsius" = v
  /\ convertToCelsius v "fahrenheit" = (v - literal 32 0) * literal 5 0 / literal 9 0
  /\ convertToCelsius v "kelvin" = v - literal 27315 (-2)
  /\ convertFromCelsius v "celsius" = v
  /\ convertFromCelsius v "fahrenheit" = v * literal 9 0 / literal 5 0 + literal 32 0
  /\ convertFromCelsius v "kelvin" = v + literal 27315 (-2).
Proof. repeat split. Qed.

(** C9: for a unit string outside celsius, fahrenheit and kelvin both
    switches take their default branch and return the value unchanged, so
    [convertTo] treats an unrecognized unit on either side as Celsius. *)
Theorem unrecognized_unit_is_celsius (v : N) (unit other : string) :
  ~ In unit units ->
  convertToCelsius v unit = v
  /\ convertFromCelsius v unit = v
  /\ convertTo v unit other = convertTo v "celsius" other
  /\ convertTo v other unit = convertTo v other "celsius".
Proof.
  intros Hu. unfold convertTo.
  pose proof (convertToCelsius_default v unit Hu) as Hto.
  pose proof (fun c => convertFromCelsius_default c unit Hu) as Hfrom.
  repeat split.
  - exact Hto.
  - apply Hfrom.
  - rewrite Hto. reflexivity.
  - rewrite Hfrom. reflexivity.
Qed.

End ConversionFacts.

Lemma unrecognized_unit_is_celsius_witness :
  ~ In "rankine"%string units
  /\ convertToCelsius (B64.lit 500 0) "rankine" = B64.lit 500 0
  /\ convertFromCelsius (B64.lit 500 0) "rankine" = B64.lit 500 0.
Proof.
  assert (Hu : ~ In "rankine"%string units).
  { simpl. intros [E|[E|[E|[]]]]; discriminate E. }
  split; [exact Hu|].
  destruct (unrecognized_unit_is_celsius (B64.lit 500 0) "rankine" "kelvin" Hu)
    as (H1 & H2 & _).
  split; [exact H1 | exact H2].
Defined.

(** ** Digits and shifts *)

Lemma In_units (u : string) :
  In u units ->
  u = "celsius"%string \/ u = "fahrenheit"%string \/ u = "kelvin"%string.
Proof. simpl. intuition. Qed.

Lemma shr_1_nonneg (mrs : shr_record) :
  0 <= shr_m mrs -> 0 <= shr_m (shr_1 mrs).
Proof.
  destruct mrs as [m r s]. simpl.
  destruct m as [|p|p]; [simpl; lia | | lia].
  intros _. destruct p; simpl; lia.
Qed.

Lemma digits2_pos_bounds (p : positive) :
  2 ^ (Zpos (digits2_pos p) - 1) <= Zpos p < 2 ^ Zpos (digits2_pos p).
Proof.
  induction p as [p IH|p IH|]; cbn [digits2_pos].
  - rewrite Pos2Z.inj_succ.
    replace (Z.succ (Zpos (digits2_pos p)) - 1)
      with (Z.succ (Zpos (digits2_pos p) - 1)) by lia.
    rewrite !Z.pow_succ_r by lia. lia.
  - rewrite Pos2Z.inj_succ.
    replace (Z.succ (Zpos (digits2_pos p)) - 1)
      with (Z.succ (Zpos (digits2_pos p) - 1)) by lia.
    rewrite !Z.pow_succ_r by lia. lia.
  - simpl. lia.
Qed.

Lemma digits2_pos_le (p : positive) (k : Z) :
  Zpos p < 2 ^ k -> Zpos (digits2_pos p) <= k.
Proof.
  intros Hp. destruct (Z.le_gt_cases (Zpos (digits2_pos p)) k) as [|Hgt]; [assumption|].
  exfalso.
  assert (Hk : 0 <= k).
  { destruct (Z.le_gt_cases 0 k); [assumption|].
    rewrite Z.pow_neg_r in Hp by lia. lia. }
  pose proof (digits2_pos_bounds p) as [Hlo _].
  assert (2 ^ k <= 2 ^ (Zpos (digits2_pos p) - 1)).
  { apply Z.pow_le_mono_r; lia. }
  lia.
Qed.

Lemma iter_xO_value (p k : positive) :
  Zpos (Pos.iter xO p k) = Zpos p * 2 ^ Zpos k.
Proof.
  induction k as [|k IH] using Pos.peano_ind.
  - simpl. lia.
  - rewrite Pos.iter_succ, Pos2Z.inj_succ, Z.pow_succ_r by lia.
    rewrite Pos2Z.inj_xO, IH. lia.
Qed.

Lemma iter_xO_digits (p k : positive) :
  Zpos (digits2_pos (Pos.iter xO p k)) = Zpos (digits2_pos p) + Zpos k.
Proof.
  induction k as [|k IH] using Pos.peano_ind.
  - simpl. lia.
  - rewrite Pos.iter_succ. cbn [digits2_pos].
    rewrite !Pos2Z.inj_succ, IH. lia.
Qed.

(** ** [Math.round] on binary64 *)

(** A mantissa of full width whose exponent is in range is left as it is
    by the rounding of [spec_float]. *)
Lemma binary_round_aux_full_width (s : bool) (m : positive) (e : Z) :
  Zpos (digits2_pos m) = B64.prec ->
  - 1074 <= e <= B64.emax - B64.prec ->
  binary_round_aux B64.prec B64.emax s (Zpos m) e loc_Exact = S754_finite s m e.
Proof.
  intros Hd He. unfold binary_round_aux.
  assert (Hs : forall l, l = loc_Exact ->
    shr_fexp B64.prec B64.emax (Zpos m) e l
    = ({| shr_m := Zpos m; shr_r := false; shr_s := false |}, e)).
  { intros l ->. unfold shr_fexp. cbn [Zdigits2]. rewrite Hd.
    unfold fexp, emin, B64.prec, B64.emax in *.
    replace (Z.max (53 + e - 53) (3 - 1024 - 53) - e) with 0 by lia.
    reflexivity. }
  rewrite (Hs loc_Exact eq_refl). cbn [shr_m loc_of_shr_record round_nearest_even].
  rewrite (Hs loc_Exact eq_refl). cbn [shr_m].
  destruct (Z.leb_spec e (B64.emax - B64.prec)); [reflexivity|lia].
Qed.

(** An integer of at most 53 bits is represented exactly. *)
Lemma binary_round_integer (s : bool) (p : positive) :
  Zpos (digits2_pos p) <= B64.prec ->
  exists (m : positive) (e : Z),
    binary_round B64.prec B64.emax s p 0 = S754_finite s m e
    /\ - 52 <= e <= 0 /\ Zpos m = Zpos p * 2 ^ (- e).
Proof.
  intros Hd. unfold binary_round.
  pose proof (Pos2Z.is_pos (digits2_pos p)) as Hpos.
  unfold shl_align, fexp, emin, B64.prec, B64.emax in *.
  replace (Z.max (Zpos (digits2_pos p) + 0 - 53) (3 - 1024 - 53) - 0)
    with (Zpos (digits2_pos p) - 53) by lia.
  replace (Z.max (Zpos (digits2_pos p) + 0 - 53) (3 - 1024 - 53))
    with (Zpos (digits2_pos p) - 53) by lia.
  destruct (Zpos (digits2_pos p) - 53) as [|k|k] eqn:Hk; [|lia|].
  - exists p, 0. split; [|split; [lia|simpl; lia]].
    apply binary_round_aux_full_width; unfold B64.prec, B64.emax; lia.
  - exists (Pos.iter xO p k), (Zneg k). split; [|split].
    + apply binary_round_aux_full_width; unfold B64.prec, B64.emax; [|lia].
      rewrite iter_xO_digits. lia.
    + lia.
    + rewrite iter_xO_value. reflexivity.
Qed.

Lemma to_Q_finite (s : bool) (m : positive) (e : Z) (z : Z) :
  e <= 0 -> Zpos m = Z.abs z * 2 ^ (- e) -> s = (z <? 0) ->
  B64.to_Q (S754_finite s m e) == inject_Z z.
Proof.
  intros He Hm Hs. unfold B64.to_Q.
  assert (Hz : cond_Zopp s (Zpos m) = z * 2 ^ (- e)).
  { rewrite Hm, Hs. unfold cond_Zopp. destruct (Z.ltb_spec z 0); lia. }
  destruct (Z.leb_spec 0 e) as [H0|H0].
  - assert (e = 0) by lia. subst e. rewrite Hz.
    change (2 ^ (- 0)) with 1. rewrite !Z.mul_1_r. reflexivity.
  - rewrite Hz. unfold Qeq, inject_Z. cbn [Qnum Qden].
    rewrite Z2Pos.id by (apply Z.pow_pos_nonneg; lia). lia.
Qed.

Lemma binary_normalize_integer (n : Z) :
  Z.abs n <= 2 ^ 52 ->
  B64.to_Q (binary_normalize B64.prec B64.emax n 0 false) == inject_Z n.
Proof.
  intros Hn. destruct n as [|p|p]; cbn [binary_normalize].
  - reflexivity.
  - destruct (binary_round_integer false p) as (m & e & -> & He & Hm).
    { apply digits2_pos_le. change (Z.abs (Zpos p)) with (Zpos p) in Hn.
      unfold B64.prec. change (2 ^ 53) with (2 * 2 ^ 52). lia. }
    apply to_Q_finite; [lia|exact Hm|reflexivity].
  - destruct (binary_round_integer true p) as (m & e & -> & He & Hm).
    { apply digits2_pos_le. change (Z.abs (Zneg p)) with (Zpos p) in Hn.
      unfold B64.prec. change (2 ^ 53) with (2 * 2 ^ 52). lia. }
    apply to_Q_finite; [lia|exact Hm|reflexivity].
Qed.

Lemma valid_mantissa_bound (s : bool) (m : positive) (e : Z) :
  valid_binary B64.prec B64.emax (S754_finite s m e) = true ->
  Zpos m < 2 ^ 53.
Proof.
  cbn [valid_binary]. unfold bounded, canonical_mantissa, fexp, emin.
  unfold B64.prec, B64.emax. intros H.
  apply andb_true_iff in H. destruct H as [H _]. apply Z.eqb_eq in H.
  pose proof (digits2_pos_bounds m) as [_ Hhi].
  assert (Hd : Zpos (digits2_pos m) <= 53) by lia.
  assert (2 ^ Zpos (digits2_pos m) <= 2 ^ 53) by (apply Z.pow_le_mono_r; lia).
  lia.
Qed.

Lemma round_half_up_bound (s : bool) (m : positive) (e : Z) :
  e < 0 -> Zpos m < 2 ^ 53 -> Z.abs (B64.round_half_up s m e) <= 2 ^ 52.
Proof.
  intros He Hm. unfold B64.round_half_up.
  set (D := 2 ^ (- e)).
  assert (HD : 2 <= D).
  { subst D. change 2 with (2 ^ 1) at 1. apply Z.pow_le_mono_r; lia. }
  replace (2 ^ (- e + 1)) with (2 * D)
    by (subst D; rewrite Z.pow_add_r by lia; lia).
  change (2 ^ 53) with (2 * 2 ^ 52) in Hm.
  assert (Hup : (2 * cond_Zopp s (Zpos m) + D) / (2 * D) <= 2 ^ 52).
  { apply Z.lt_succ_r, Z.div_lt_upper_bound; [lia|].
    destruct s; cbn [cond_Zopp]; nia. }
  assert (Hlo : - 2 ^ 52 <= (2 * cond_Zopp s (Zpos m) + D) / (2 * D)).
  { apply Z.div_le_lower_bound; [lia|].
    destruct s; cbn [cond_Zopp]; nia. }
  lia.
Qed.

Lemma Qfloor_plus_half (n : Z) (d : positive) :
  Qfloor (Qmake n d + (1 # 2)) = (2 * n + Zpos d) / (2 * Zpos d).
Proof.
  unfold Qplus, Qfloor. cbn [Qnum Qden].
  f_equal; lia.
Qed.

(** [Math.round] on a finite binary64 value is [floor (x + 1/2)] of its
    exact value: the nearest integer, a tie going towards +Infinity. *)
Lemma round_floor_half (y : B64.number) :
  valid_binary B64.prec B64.emax y = true ->
  B64.is_finite y = true ->
  B64.to_Q (B64.round y) == Exact.round (B64.to_Q y).
Proof.
  intros Hv Hf. destruct y as [s|s| |s m e]; try discriminate Hf.
  - reflexivity.
  - unfold B64.round, Exact.round.
    destruct (Z.leb_spec 0 e) as [He|He].
    + unfold B64.to_Q. destruct (Z.leb_spec 0 e) as [_|]; [|lia].
      unfold inject_Z at 3. rewrite Qfloor_plus_half.
      replace ((2 * (cond_Zopp s (Zpos m) * 2 ^ e) + 1) / (2 * 1))
        with (cond_Zopp s (Zpos m) * 2 ^ e); [reflexivity|].
      apply Z.div_unique with (r := 1); lia.
    + pose proof (valid_mantissa_bound s m e Hv) as Hm.
      pose proof (round_half_up_bound s m e He Hm) as Hn.
      assert (Hfl : Qfloor (B64.to_Q (S754_finite s m e) + (1 # 2))
                    = B64.round_half_up s m e).
      { unfold B64.to_Q. destruct (Z.leb_spec 0 e) as [|_]; [lia|].
        rewrite Qfloor_plus_half. unfold B64.round_half_up.
        rewrite Z2Pos.id by (apply Z.pow_pos_nonneg; lia).
        rewrite Z.pow_add_r by lia. f_equal; lia. }
      rewrite Hfl.
      destruct (B64.round_half_up s m e) as [|p|p] eqn:En.
      * reflexivity.
      * apply binary_normalize_integer. exact Hn.
      * apply binary_normalize_integer. exact Hn.
Qed.

(** ** The rounding of [spec_float] *)

(** *** Powers of two and magnitudes *)

Lemma pow2_pos (e : Z) : (0 < pow2 e)%Q.
Proof. apply Qpower_0_lt. reflexivity. Qed.

Lemma pow2_add (a b : Z) : (pow2 (a + b) == pow2 a * pow2 b)%Q.
Proof. apply Qpower_plus. discriminate. Qed.

Lemma pow2_succ (e : Z) : (pow2 (e + 1) == 2 * pow2 e)%Q.
Proof. rewrite pow2_add. change (pow2 1) with 2%Q. ring. Qed.

Lemma pow2_Z (e : Z) : 0 <= e -> (pow2 e == inject_Z (2 ^ e))%Q.
Proof. intros He. unfold pow2. rewrite Zpower_Qpower by exact He. reflexivity. Qed.

Lemma pow2_le (a b : Z) : a <= b -> (pow2 a <= pow2 b)%Q.
Proof.
  intros Hab. replace b with (a + (b - a)) by lia. rewrite pow2_add.
  assert (H1 : (1 <= pow2 (b - a))%Q).
  { rewrite pow2_Z by lia. change 1%Q with (inject_Z 1).
    rewrite <- Zle_Qle. pose proof (Z.pow_pos_nonneg 2 (b - a)). lia. }
  pose proof (pow2_pos a). nra.
Qed.

Lemma pow2_lt (a b : Z) : a < b -> (pow2 a < pow2 b)%Q.
Proof.
  intros Hab. apply Qlt_le_trans with (pow2 (a + 1)).
  - rewrite pow2_succ. pose proof (pow2_pos a). lra.
  - apply pow2_le. lia.
Qed.

Lemma mag_of_unique (v : Q) (k1 k2 : Z) : mag_of v k1 -> mag_of v k2 -> k1 = k2.
Proof.
  intros [L1 U1] [L2 U2].
  destruct (Z.lt_trichotomy k1 k2) as [H|[H|H]]; [|exact H|]; exfalso.
  - pose proof (pow2_le k1 (k2 - 1) ltac:(lia)). lra.
  - pose proof (pow2_le k2 (k1 - 1) ltac:(lia)). lra.
Qed.

(** *** Shifting a located value *)

Lemma scaled_succ (v : Q) (e : Z) : (scaled v (e + 1) == scaled v e * (1 # 2))%Q.
Proof.
  unfold scaled. rewrite pow2_succ. field.
  pose proof (pow2_pos e). lra.
Qed.

Lemma inject_Z_xO (p : positive) : (inject_Z (Zpos p~0) == 2 * inject_Z (Zpos p))%Q.
Proof. rewrite Pos2Z.inj_xO, inject_Z_mult. reflexivity. Qed.

Lemma inject_Z_xI (p : positive) : (inject_Z (Zpos p~1) == 2 * inject_Z (Zpos p) + 1)%Q.
Proof. rewrite Pos2Z.inj_xI, inject_Z_plus, inject_Z_mult. reflexivity. Qed.

(** One shift to the right halves the unit and keeps the value located. *)
Lemma shr_1_located (v : Q) (e : Z) (mrs : shr_record) :
  0 <= shr_m mrs -> located_rec v e mrs -> located_rec v (e + 1) (shr_1 mrs).
Proof.
  destruct mrs as [m r s]. unfold located_rec. cbn [shr_m].
  intros Hm. destruct m as [|p|p]; [| |lia].
  - destruct r, s; cbn; rewrite scaled_succ;
      set (x := scaled v e); change (inject_Z 0) with 0%Q; lra.
  - destruct p as [p|p|]; destruct r, s; cbn; rewrite scaled_succ;
      rewrite ?inject_Z_xO, ?inject_Z_xI;
      set (x := scaled v e);
      try set (y := inject_Z (Zpos p));
      change (inject_Z 0) with 0%Q; change (inject_Z 1) with 1%Q; lra.
Qed.

Lemma iter_shr_1_located (v : Q) (n : positive) :
  forall (e : Z) (mrs : shr_record),
    0 <= shr_m mrs -> located_rec v e mrs ->
    0 <= shr_m (iter_pos shr_1 n mrs)
    /\ located_rec v (e + Zpos n) (iter_pos shr_1 n mrs).
Proof.
  assert (Hstep : forall e mrs, 0 <= shr_m mrs -> located_rec v e mrs ->
            0 <= shr_m (shr_1 mrs) /\ located_rec v (e + 1) (shr_1 mrs)).
  { intros e mrs H0 HL. split; [apply shr_1_nonneg, H0|apply shr_1_located; assumption]. }
  induction n as [n IH|n IH|]; intros e mrs H0 HL; cbn [iter_pos].
  - destruct (Hstep e mrs H0 HL) as [H1 L1].
    destruct (IH _ _ H1 L1) as [H2 L2].
    destruct (IH _ _ H2 L2) as [H3 L3].
    split; [exact H3|].
    replace (e + Zpos n~1) with (e + 1 + Zpos n + Zpos n) by lia. exact L3.
  - destruct (IH _ _ H0 HL) as [H2 L2].
    destruct (IH _ _ H2 L2) as [H3 L3].
    split; [exact H3|].
    replace (e + Zpos n~0) with (e + Zpos n + Zpos n) by lia. exact L3.
  - apply Hstep; assumption.
Qed.

Lemma fx_eq (k : Z) : fx k = Z.max (k - 53) (- 1074).
Proof. reflexivity. Qed.

Lemma shr_record_of_loc_m (m : Z) (l : location) : shr_m (shr_record_of_loc m l) = m.
Proof. destruct l as [|[| |]]; reflexivity. Qed.

Lemma loc_of_shr_record_of_loc (m : Z) (l : location) :
  loc_of_shr_record (shr_record_of_loc m l) = l.
Proof. destruct l as [|[| |]]; reflexivity. Qed.

Lemma scaled_mult (v : Q) (e : Z) : (v == scaled v e * pow2 e)%Q.
Proof. unfold scaled. field. pose proof (pow2_pos e). lra. Qed.

Lemma located_bounds (v : Q) (e m : Z) (l : location) :
  located v e m l -> (inject_Z m <= scaled v e /\ scaled v e < inject_Z m + 1)%Q.
Proof. unfold located. destruct l as [|[| |]]; intros H; lra. Qed.

Lemma located_mag (v : Q) (e : Z) (p : positive) (l : location) :
  located v e (Zpos p) l -> mag_of v (Zpos (digits2_pos p) + e).
Proof.
  intros HL. apply located_bounds in HL. destruct HL as [Hlo Hhi].
  pose proof (digits2_pos_bounds p) as [Dlo Dhi].
  set (d := Zpos (digits2_pos p)) in *.
  assert (Hd : 1 <= d) by (subst d; lia).
  unfold mag_of. rewrite (scaled_mult v e) at 1 2.
  set (x := scaled v e) in *.
  replace (d + e - 1) with ((d - 1) + e) by lia. rewrite !pow2_add.
  rewrite (pow2_Z (d - 1)) by lia. rewrite (pow2_Z d) by lia.
  pose proof (pow2_pos e) as Hp.
  assert (H1 : (inject_Z (2 ^ (d - 1)) <= x)%Q).
  { apply Qle_trans with (inject_Z (Zpos p)); [rewrite <- Zle_Qle; lia|exact Hlo]. }
  assert (H2 : (x < inject_Z (2 ^ d))%Q).
  { apply Qlt_le_trans with (inject_Z (Zpos p) + 1)%Q; [exact Hhi|].
    change 1%Q with (inject_Z 1). rewrite <- inject_Z_plus, <- Zle_Qle. lia. }
  split.
  - apply Qmult_le_compat_r; [exact H1|lra].
  - apply Qmult_lt_compat_r; [exact Hp|exact H2].
Qed.

(** The first shift of [binary_round_aux] brings a value that is located
    finely enough to the exponent of its magnitude. *)
Lemma shr_fexp_located (v : Q) (e m k : Z) (l : location) :
  0 <= m -> located v e m l -> mag_of v k -> e <= fx k ->
  exists mrs : shr_record,
    shr_fexp B64.prec B64.emax m e l = (mrs, fx k)
    /\ 0 <= shr_m mrs /\ located_rec v (fx k) mrs.
Proof.
  intros Hm HL Hk He. unfold shr_fexp.
  assert (Hf : fexp B64.prec B64.emax (Zdigits2 m + e) = fx k).
  { destruct m as [|p|p]; [| |lia].
    - cbn [Zdigits2]. apply located_bounds in HL. destruct HL as [_ Hhi].
      change (inject_Z 0) with 0%Q in Hhi.
      assert (Hv : (v < pow2 e)%Q).
      { rewrite (scaled_mult v e) at 1. pose proof (pow2_pos e). nra. }
      assert (Hke : k <= e).
      { destruct (Z.le_gt_cases k e) as [|Hgt]; [assumption|exfalso].
        destruct Hk as [Hk _]. pose proof (pow2_le e (k - 1) ltac:(lia)). lra. }
      rewrite fx_eq in He. change (fexp B64.prec B64.emax (0 + e)) with (fx (0 + e)).
      rewrite !fx_eq. lia.
    - cbn [Zdigits2]. pose proof (located_mag v e p l HL) as Hk'.
      rewrite (mag_of_unique v _ _ Hk' Hk). reflexivity. }
  rewrite Hf.
  assert (H0 : 0 <= shr_m (shr_record_of_loc m l))
    by (rewrite shr_record_of_loc_m; exact Hm).
  assert (HL0 : located_rec v e (shr_record_of_loc m l)).
  { unfold located_rec. rewrite shr_record_of_loc_m, loc_of_shr_record_of_loc. exact HL. }
  destruct (fx k - e) as [|n|n] eqn:En; [| |lia].
  - exists (shr_record_of_loc m l). cbn [shr].
    replace (fx k) with e by lia. repeat split; assumption.
  - destruct (iter_shr_1_located v n e _ H0 HL0) as [H1 L1].
    exists (iter_pos shr_1 n (shr_record_of_loc m l)). cbn [shr].
    replace (fx k) with (e + Zpos n) by lia. repeat split; assumption.
Qed.

(** *** Rounding to the nearest integer *)

Lemma Qfloor_unique (x : Q) (m : Z) :
  (inject_Z m <= x)%Q -> (x < inject_Z m + 1)%Q -> Qfloor x = m.
Proof.
  intros Hlo Hhi.
  pose proof (Qfloor_le x) as Flo. pose proof (Qlt_floor x) as Fhi.
  assert (H1 : (inject_Z m < inject_Z (Qfloor x + 1))%Q) by lra.
  assert (H2 : (inject_Z (Qfloor x) < inject_Z (m + 1))%Q).
  { rewrite inject_Z_plus. change (inject_Z 1) with 1%Q. lra. }
  rewrite <- Zlt_Qlt in H1, H2. lia.
Qed.

(** On a located value [round_nearest_even] is [rne]. *)
Lemma located_rne (v : Q) (e m : Z) (l : location) :
  located v e m l -> round_nearest_even m l = rne (scaled v e).
Proof.
  intros HL. pose proof (located_bounds v e m l HL) as [Hlo Hhi].
  unfold rne. rewrite (Qfloor_unique _ m Hlo Hhi).
  unfold located in HL. set (x := scaled v e) in *. clearbody x.
  destruct l as [|[| |]]; cbn [round_nearest_even]; cbv beta iota in HL.
  - assert (C : (x - inject_Z m ?= 1 # 2)%Q = Lt) by (apply (proj1 (Qlt_alt _ _)); lra).
    rewrite C. reflexivity.
  - assert (C : (x - inject_Z m ?= 1 # 2)%Q = Eq) by (apply (proj1 (Qeq_alt _ _)); lra).
    rewrite C. reflexivity.
  - assert (C : (x - inject_Z m ?= 1 # 2)%Q = Lt) by (apply (proj1 (Qlt_alt _ _)); lra).
    rewrite C. reflexivity.
  - assert (C : (x - inject_Z m ?= 1 # 2)%Q = Gt) by (apply (proj1 (Qgt_alt _ _)); lra).
    rewrite C. reflexivity.
Qed.

Lemma rne_floor (x : Q) : Qfloor x <= rne x <= Qfloor x + 1.
Proof.
  unfold rne. destruct (x - inject_Z (Qfloor x) ?= 1 # 2)%Q; try lia.
  destruct (Z.even (Qfloor x)); lia.
Qed.

Lemma rne_error (x : Q) : (Qabs (inject_Z (rne x) - x) <= 1 # 2)%Q.
Proof.
  pose proof (Qfloor_le x) as Flo. pose proof (Qlt_floor x) as Fhi.
  rewrite inject_Z_plus in Fhi. change (inject_Z 1) with 1%Q in Fhi.
  apply Qabs_Qle_condition. unfold rne.
  destruct (x - inject_Z (Qfloor x) ?= 1 # 2)%Q eqn:C.
  - apply (proj2 (Qeq_alt _ _)) in C.
    destruct (Z.even (Qfloor x)); rewrite ?inject_Z_plus;
      change (inject_Z 1) with 1%Q; lra.
  - apply (proj2 (Qlt_alt _ _)) in C. lra.
  - apply (proj2 (Qgt_alt _ _)) in C. rewrite inject_Z_plus.
    change (inject_Z 1) with 1%Q. lra.
Qed.

Lemma rne_mono (x y : Q) : (x <= y)%Q -> rne x <= rne y.
Proof.
  intros Hxy. pose proof (Qfloor_resp_le x y Hxy) as Hf.
  destruct (Z.eq_dec (Qfloor x) (Qfloor y)) as [E|NE].
  - unfold rne. rewrite <- E.
    destruct (x - inject_Z (Qfloor x) ?= 1 # 2)%Q eqn:Cx;
      destruct (y - inject_Z (Qfloor x) ?= 1 # 2)%Q eqn:Cy;
      try (destruct (Z.even (Qfloor x))); try lia; exfalso;
      repeat match goal with
             | H : (_ ?= _)%Q = Eq |- _ => apply (proj2 (Qeq_alt _ _)) in H
             | H : (_ ?= _)%Q = Lt |- _ => apply (proj2 (Qlt_alt _ _)) in H
             | H : (_ ?= _)%Q = Gt |- _ => apply (proj2 (Qgt_alt _ _)) in H
             end; lra.
  - pose proof (rne_floor x). pose proof (rne_floor y). lia.
Qed.

(** *** The result of [binary_round_aux] *)

Lemma digits_2pow53 (p : positive) :
  Zpos p <= 2 ^ 53 -> 53 < Zpos (digits2_pos p) -> p = 9007199254740992%positive.
Proof.
  intros Hle Hd. pose proof (digits2_pos_bounds p) as [Hlo _].
  assert (2 ^ 53 <= 2 ^ (Zpos (digits2_pos p) - 1)) by (apply Z.pow_le_mono_r; lia).
  assert (Zpos p = 2 ^ 53) by lia.
  change (2 ^ 53) with 9007199254740992 in *. congruence.
Qed.

(** The second shift of [binary_round_aux] and its final case analysis
    are [pack]: a mantissa that rounding carried to [2 ^ 53] is halved. *)
Lemma renormalize_pack (s : bool) (n e : Z) :
  0 <= n <= 2 ^ 53 -> - 1074 <= e ->
  (let '(mrs, e') := shr_fexp B64.prec B64.emax n e loc_Exact in
   match shr_m mrs with
   | Z0 => S754_zero s
   | Zpos m =>
       if e' <=? B64.emax - B64.prec then S754_finite s m e' else S754_infinity s
   | Zneg _ => S754_nan
   end) = pack s n e.
Proof.
  intros Hn He. unfold shr_fexp, pack.
  destruct n as [|p|p]; [| |lia].
  - cbn [Zdigits2]. change (fexp B64.prec B64.emax (0 + e)) with (fx (0 + e)).
    rewrite fx_eq. destruct (Z.max (0 + e - 53) (-1074) - e) eqn:E; try lia; reflexivity.
  - cbn [Zdigits2 shr_record_of_loc].
    change (fexp B64.prec B64.emax (Zpos (digits2_pos p) + e))
      with (fx (Zpos (digits2_pos p) + e)).
    rewrite fx_eq.
    destruct (Z.leb_spec (Zpos (digits2_pos p)) 53) as [Hd|Hd].
    + destruct (Z.max (Zpos (digits2_pos p) + e - 53) (-1074) - e) eqn:E; try lia;
        reflexivity.
    + assert (Hp : p = 9007199254740992%positive) by (apply digits_2pow53; lia).
      subst p. change (Zpos (digits2_pos 9007199254740992)) with 54.
      replace (Z.max (54 + e - 53) (-1074) - e) with 1 by lia.
      reflexivity.
Qed.

Lemma scaled_bound (v : Q) (k : Z) :
  mag_of v k -> (0 <= scaled v (fx k) /\ scaled v (fx k) < inject_Z (2 ^ 53))%Q.
Proof.
  intros [Hlo Hhi]. unfold scaled.
  pose proof (pow2_pos (fx k)) as Hp. pose proof (pow2_pos (k - 1)) as Hk.
  split.
  - apply Qle_shift_div_l; [exact Hp|]. lra.
  - apply Qlt_shift_div_r; [exact Hp|].
    rewrite <- pow2_Z by lia. rewrite <- pow2_add.
    apply Qlt_le_trans with (pow2 k); [exact Hhi|].
    apply pow2_le. rewrite fx_eq. lia.
Qed.

Lemma rne_bound (v : Q) (k : Z) :
  mag_of v k -> 0 <= rne (scaled v (fx k)) <= 2 ^ 53.
Proof.
  intros Hk. destruct (scaled_bound v k Hk) as [Hlo Hhi].
  pose proof (rne_floor (scaled v (fx k))) as [R1 R2].
  pose proof (Qfloor_resp_le _ _ Hlo) as F1. change (Qfloor 0) with 0 in F1.
  pose proof (Qfloor_le (scaled v (fx k))) as F2.
  assert (F3 : (inject_Z (Qfloor (scaled v (fx k))) < inject_Z (2 ^ 53))%Q) by lra.
  rewrite <- Zlt_Qlt in F3. lia.
Qed.

(** The rounding of [spec_float] is the nearest-even rounding of the located
    value at the exponent of its magnitude. *)
Theorem binary_round_aux_correct (s : bool) (v : Q) (m e k : Z) (l : location) :
  0 <= m -> located v e m l -> mag_of v k -> e <= fx k ->
  binary_round_aux B64.prec B64.emax s m e l = round_to s v k.
Proof.
  intros Hm HL Hk He. unfold binary_round_aux, round_to.
  destruct (shr_fexp_located v e m k l Hm HL Hk He) as (mrs & -> & H0 & L0).
  unfold located_rec in L0. rewrite (located_rne _ _ _ _ L0).
  apply renormalize_pack.
  - apply rne_bound. exact Hk.
  - rewrite fx_eq. lia.
Qed.

(** *** Values of numbers and of rounded results *)

Lemma pow2_opp (e : Z) : (pow2 e * pow2 (- e) == 1)%Q.
Proof. rewrite <- pow2_add. replace (e + - e) with 0 by lia. reflexivity. Qed.

Lemma to_Q_pow2 (s : bool) (m : positive) (e : Z) :
  (B64.to_Q (S754_finite s m e) == inject_Z (cond_Zopp s (Zpos m)) * pow2 e)%Q.
Proof.
  unfold B64.to_Q. destruct (Z.leb_spec 0 e) as [He|He].
  - rewrite inject_Z_mult, pow2_Z by exact He. reflexivity.
  - rewrite Qmake_Qdiv. rewrite Z2Pos.id by (apply Z.pow_pos_nonneg; lia).
    rewrite <- pow2_Z by lia.
    assert (Hi : (pow2 e == / pow2 (- e))%Q).
    { replace e with (- - e) at 1 by lia. apply Qpower_opp. }
    rewrite Hi. reflexivity.
Qed.

Lemma cond_Zopp_Q (s : bool) (z : Z) :
  (inject_Z (cond_Zopp s z) == (if s then - inject_Z z else inject_Z z))%Q.
Proof. destruct s; cbn [cond_Zopp]; [rewrite inject_Z_opp|]; reflexivity. Qed.

Lemma sgn_compat (s : bool) (a b : Q) : a == b -> sgn s a == sgn s b.
Proof. intros E. destruct s; cbn; rewrite E; reflexivity. Qed.

Lemma to_Q_sgn (s : bool) (m : positive) (e : Z) :
  B64.to_Q (S754_finite s m e) == sgn s (inject_Z (Zpos m) * pow2 e).
Proof. rewrite to_Q_pow2, cond_Zopp_Q. destruct s; cbn [sgn]; ring. Qed.

Lemma scaled_compat (v w : Q) (e : Z) : v == w -> scaled v e == scaled w e.
Proof. intros E. unfold scaled. rewrite E. reflexivity. Qed.

Lemma Qfloor_compat (x y : Q) : x == y -> Qfloor x = Qfloor y.
Proof. intros E. rewrite E. reflexivity. Qed.

Lemma rne_compat (x y : Q) : x == y -> rne x = rne y.
Proof.
  intros E. unfold rne. rewrite (Qfloor_compat x y E).
  assert (C : (x - inject_Z (Qfloor y) ?= 1 # 2)%Q
              = (y - inject_Z (Qfloor y) ?= 1 # 2)%Q).
  { rewrite E. reflexivity. }
  rewrite C. reflexivity.
Qed.

Lemma round_to_compat (s : bool) (v w : Q) (k : Z) :
  v == w -> round_to s v k = round_to s w k.
Proof.
  intros E. unfold round_to. rewrite (rne_compat _ _ (scaled_compat v w (fx k) E)).
  reflexivity.
Qed.

Lemma mag_of_compat (v w : Q) (k : Z) : v == w -> mag_of v k -> mag_of w k.
Proof. intros E [H1 H2]. unfold mag_of. rewrite <- E. split; assumption. Qed.

Lemma rne_Z (z : Z) : rne (inject_Z z) = z.
Proof.
  unfold rne. rewrite Qfloor_Z.
  assert (C : (inject_Z z - inject_Z z ?= 1 # 2)%Q = Lt)
    by (apply (proj1 (Qlt_alt _ _)); lra).
  rewrite C. reflexivity.
Qed.

(** The value a finite result stands for. *)
Lemma pack_value (s : bool) (n e : Z) :
  0 <= n <= 2 ^ 53 -> B64.is_finite (pack s n e) = true ->
  B64.to_Q (pack s n e) == sgn s (inject_Z n * pow2 e).
Proof.
  intros Hn Hf. unfold pack in *. destruct n as [|p|p]; [| |lia].
  - cbn. destruct s; cbn; ring.
  - destruct (Z.leb_spec (Zpos (digits2_pos p)) 53) as [Hd|Hd].
    + destruct (e <=? 971); [|discriminate Hf]. apply to_Q_sgn.
    + destruct (e + 1 <=? 971); [|discriminate Hf].
      assert (Hp : p = 9007199254740992%positive) by (apply digits_2pow53; lia).
      subst p. rewrite to_Q_sgn. apply sgn_compat.
      rewrite pow2_succ. cbn [Pos.div2].
      change (inject_Z 9007199254740992) with (2 * inject_Z 4503599627370496)%Q.
      ring.
Qed.

Lemma digits2_pos_ge (p : positive) (t : Z) :
  2 ^ t <= Zpos p -> t + 1 <= Zpos (digits2_pos p).
Proof.
  intros Ht. pose proof (digits2_pos_bounds p) as [_ Hhi].
  destruct (Z.le_gt_cases (t + 1) (Zpos (digits2_pos p))) as [|Hgt]; [assumption|].
  exfalso.
  assert (0 <= t \/ t < 0) as [H0|H0] by lia.
  - assert (2 ^ Zpos (digits2_pos p) <= 2 ^ t) by (apply Z.pow_le_mono_r; lia). lia.
  - lia.
Qed.

Lemma scaled_lower (v : Q) (k : Z) :
  mag_of v k -> - 1074 < k - 53 -> (inject_Z (2 ^ 52) <= scaled v (fx k))%Q.
Proof.
  intros [Hlo _] Hk. unfold scaled.
  pose proof (pow2_pos (fx k)) as Hp.
  apply Qle_shift_div_l; [exact Hp|].
  rewrite <- pow2_Z by lia. rewrite <- pow2_add.
  replace (52 + fx k) with (k - 1) by (rewrite fx_eq; lia). exact Hlo.
Qed.

Lemma rne_lower (v : Q) (k : Z) :
  mag_of v k -> - 1074 < k - 53 -> 2 ^ 52 <= rne (scaled v (fx k)).
Proof.
  intros Hk Hn. pose proof (scaled_lower v k Hk Hn) as Hs.
  pose proof (rne_mono _ _ Hs) as Hm. rewrite rne_Z in Hm. exact Hm.
Qed.

(** A rounded value is a valid binary64 value. *)
Lemma round_to_valid (s : bool) (v : Q) (k : Z) :
  mag_of v k -> valid_binary B64.prec B64.emax (round_to s v k) = true.
Proof.
  intros Hk. unfold round_to.
  pose proof (rne_bound v k Hk) as Hn.
  assert (Hlow : - 1074 < k - 53 -> 2 ^ 52 <= rne (scaled v (fx k)))
    by (apply rne_lower; exact Hk).
  set (n := rne (scaled v (fx k))) in *. clearbody n.
  unfold pack. destruct n as [|p|p]; [reflexivity| |lia].
  destruct (Z.leb_spec (Zpos (digits2_pos p)) 53) as [Hd|Hd].
  - destruct (Z.leb_spec (fx k) 971) as [He|He]; [|reflexivity].
    cbn [valid_binary]. unfold bounded, canonical_mantissa.
    apply andb_true_iff. split; [|apply Z.leb_le; exact He].
    apply Z.eqb_eq.
    destruct (Z.le_gt_cases (k - 53) (- 1074)) as [Hs|Hs].
    + unfold fx, fexp, emin, B64.prec, B64.emax in *. lia.
    + specialize (Hlow Hs).
      pose proof (digits2_pos_ge p 52 Hlow).
      unfold fx, fexp, emin, B64.prec, B64.emax in *. lia.
  - destruct (Z.leb_spec (fx k + 1) 971) as [He|He]; [|reflexivity].
    assert (Hp : p = 9007199254740992%positive) by (apply digits_2pow53; lia).
    subst p. cbn [valid_binary Pos.div2]. unfold bounded, canonical_mantissa.
    apply andb_true_iff. split; [|apply Z.leb_le; exact He].
    apply Z.eqb_eq.
    change (Zpos (digits2_pos 4503599627370496)) with 53.
    unfold fx, fexp, emin, B64.prec, B64.emax in *. lia.
Qed.

(** *** The relation [Rounds] *)

Lemma mag_search (v : Q) (n : nat) :
  forall lo : Z, (pow2 lo <= v)%Q -> (v < pow2 (lo + Z.of_nat n))%Q ->
  exists k : Z, mag_of v k.
Proof.
  induction n as [|n IH]; intros lo Hlo Hhi.
  - exfalso. replace (lo + Z.of_nat 0) with lo in Hhi by lia. lra.
  - destruct (Qlt_le_dec v (pow2 (lo + Z.of_nat n))) as [Hlt|Hge].
    + exact (IH lo Hlo Hlt).
    + exists (lo + Z.of_nat (S n)). split; [|exact Hhi].
      replace (lo + Z.of_nat (S n) - 1) with (lo + Z.of_nat n) by lia. exact Hge.
Qed.

(** Every positive value has a magnitude. *)
Lemma mag_exists (v : Q) : (0 < v)%Q -> exists k : Z, mag_of v k.
Proof.
  intros Hv. destruct v as [a b].
  assert (Ha : 0 < a) by (unfold Qlt in Hv; cbn in Hv; lia).
  destruct a as [|a|a]; try lia.
  pose proof (digits2_pos_bounds a) as [_ Da].
  pose proof (digits2_pos_bounds b) as [_ Db].
  set (da := Zpos (digits2_pos a)) in *. set (db := Zpos (digits2_pos b)) in *.
  assert (Hda : 0 < da) by (subst da; lia).
  assert (Hdb : 0 < db) by (subst db; lia).
  apply (mag_search (Zpos a # b) (Z.to_nat (da + db)) (- db)).
  - assert (E : (pow2 (- db) == 1 # Z.to_pos (2 ^ db))%Q).
    { replace (- db) with (- db + 0) by lia.
      pose proof (pow2_opp db) as Ho. pose proof (pow2_pos db) as Hp.
      rewrite pow2_Z in Ho, Hp by lia.
      rewrite Qmake_Qdiv. rewrite Z2Pos.id by (apply Z.pow_pos_nonneg; lia).
      replace (- db + 0) with (- db) by lia.
      apply Qmult_inj_l with (inject_Z (2 ^ db)); [lra|].
      rewrite Ho. field. lra. }
    rewrite E. unfold Qle. cbn [Qnum Qden].
    rewrite Z2Pos.id by (apply Z.pow_pos_nonneg; lia). nia.
  - replace (- db + Z.of_nat (Z.to_nat (da + db))) with da by lia.
    rewrite pow2_Z by lia. unfold Qlt, inject_Z. cbn [Qnum Qden]. nia.
Qed.

Lemma valid_finite_inv (s : bool) (m : positive) (e : Z) :
  valid_binary B64.prec B64.emax (S754_finite s m e) = true ->
  fx (Zpos (digits2_pos m) + e) = e /\ Zpos (digits2_pos m) <= 53
  /\ - 1074 <= e <= 971.
Proof.
  cbn [valid_binary]. unfold bounded, canonical_mantissa. intros H.
  apply andb_true_iff in H. destruct H as [H1 H2].
  apply Z.eqb_eq in H1. apply Z.leb_le in H2.
  change (fexp B64.prec B64.emax ?x) with (fx x) in H1.
  split; [exact H1|]. rewrite fx_eq in H1. unfold B64.prec, B64.emax in *. lia.
Qed.

Lemma Rounds_compat (v w : Q) (r : spec_float) : v == w -> Rounds v r -> Rounds w r.
Proof.
  intros E [[H0 Hs]|(s & k & Hp & Hk & Hr)].
  - left. split; [rewrite <- E; exact H0|exact Hs].
  - right. exists s, k. pose proof (sgn_compat s v w E) as Es.
    split; [rewrite <- Es; exact Hp|].
    split; [exact (mag_of_compat _ _ k Es Hk)|].
    rewrite Hr. apply round_to_compat. exact Es.
Qed.

Lemma sgn_sgn (s : bool) (u : Q) : sgn s (sgn s u) == u.
Proof. destruct s; cbn; ring. Qed.

(** [binary_round_aux] rounds the value it is given the location of. *)
Lemma binary_round_aux_Rounds (s : bool) (u : Q) (m e : Z) (l : location) :
  0 <= m -> (0 < u)%Q -> located u e m l ->
  (forall k, mag_of u k -> e <= fx k) ->
  Rounds (sgn s u) (binary_round_aux B64.prec B64.emax s m e l).
Proof.
  intros Hm Hu HL He. destruct (mag_exists u Hu) as [k Hk].
  right. exists s, k. pose proof (sgn_sgn s u) as E.
  split; [rewrite E; exact Hu|].
  split; [apply (mag_of_compat u); [symmetry; exact E|exact Hk]|].
  rewrite (binary_round_aux_correct s u m e k l Hm HL Hk (He k Hk)).
  apply round_to_compat. symmetry. exact E.
Qed.

(** A rounding is a binary64 value, and not NaN. *)
Lemma Rounds_valid (v : Q) (r : spec_float) :
  Rounds v r -> valid_binary B64.prec B64.emax r = true /\ B64.isNaN r = false.
Proof.
  intros [[_ [s ->]]|(s & k & Hp & Hk & ->)].
  - split; reflexivity.
  - split; [apply round_to_valid; exact Hk|].
    unfold round_to. pose proof (rne_bound _ k Hk) as Hn.
    unfold pack. destruct (rne _) as [|p|p]; [reflexivity| |lia].
    destruct (_ <=? 53); [destruct (fx k <=? 971)|destruct (fx k + 1 <=? 971)];
      reflexivity.
Qed.

Lemma exact_located (u : Q) (m e : Z) :
  u == inject_Z m * pow2 e -> located u e m loc_Exact.
Proof.
  intros E. unfold located, scaled. rewrite E. field.
  pose proof (pow2_pos e). lra.
Qed.

Lemma pos_value (m : positive) (e : Z) : (0 < inject_Z (Zpos m) * pow2 e)%Q.
Proof.
  pose proof (pow2_pos e) as Hp.
  assert (H : (0 < inject_Z (Zpos m))%Q)
    by (change 0%Q with (inject_Z 0); rewrite <- Zlt_Qlt; lia).
  nra.
Qed.

(** A valid finite value is its own rounding. *)
Lemma Rounds_self (y : B64.number) :
  valid_binary B64.prec B64.emax y = true -> B64.is_finite y = true ->
  Rounds (B64.to_Q y) y.
Proof.
  intros Hv Hf. destruct y as [s|s| |s m e]; try discriminate Hf.
  - left. split; [reflexivity|exists s; reflexivity].
  - destruct (valid_finite_inv s m e Hv) as (Hc & Hd & He).
    set (u := (inject_Z (Zpos m) * pow2 e)%Q).
    assert (HL : located u e (Zpos m) loc_Exact) by (apply exact_located; reflexivity).
    pose proof (located_mag u e m loc_Exact HL) as Hk.
    apply (Rounds_compat (sgn s u)); [symmetry; apply to_Q_sgn|].
    right. exists s, (Zpos (digits2_pos m) + e).
    pose proof (sgn_sgn s u) as E.
    split; [rewrite E; apply pos_value|].
    split; [apply (mag_of_compat u); [symmetry; exact E|exact Hk]|].
    rewrite (round_to_compat s _ u _ E). unfold round_to. rewrite Hc.
    unfold located in HL. rewrite (rne_compat _ _ HL), rne_Z.
    unfold pack. destruct (Z.leb_spec (Zpos (digits2_pos m)) 53); [|lia].
    destruct (Z.leb_spec e 971); [reflexivity|lia].
Qed.

(** *** Multiplication *)

Lemma sgn_mult (s t : bool) (a b : Q) : sgn s a * sgn t b == sgn (xorb s t) (a * b).
Proof. destruct s, t; cbn; ring. Qed.

Lemma digits2_pos_mul (a b : positive) :
  Zpos (digits2_pos a) + Zpos (digits2_pos b) - 1 <= Zpos (digits2_pos (a * b)).
Proof.
  pose proof (digits2_pos_bounds a) as [La _].
  pose proof (digits2_pos_bounds b) as [Lb _].
  set (da := Zpos (digits2_pos a)) in *. set (db := Zpos (digits2_pos b)) in *.
  assert (Hda : 1 <= da) by (subst da; lia).
  assert (Hdb : 1 <= db) by (subst db; lia).
  pose proof (digits2_pos_ge (a * b) (da + db - 2)) as H.
  replace (da + db - 2) with ((da - 1) + (db - 1)) in H by lia.
  rewrite Z.pow_add_r in H by lia.
  rewrite Pos2Z.inj_mul in H.
  assert (0 < 2 ^ (da - 1)) by (apply Z.pow_pos_nonneg; lia).
  assert (0 < 2 ^ (db - 1)) by (apply Z.pow_pos_nonneg; lia).
  assert (2 ^ (da - 1) * 2 ^ (db - 1) <= Zpos a * Zpos b) by nia.
  lia.
Qed.

(** Multiplication of finite values rounds the exact product. *)
Lemma mul_Rounds (x y : B64.number) :
  valid_binary B64.prec B64.emax x = true -> B64.is_finite x = true ->
  valid_binary B64.prec B64.emax y = true -> B64.is_finite y = true ->
  Rounds (B64.to_Q x * B64.to_Q y) (B64.mul x y).
Proof.
  intros Vx Fx Vy Fy.
  destruct x as [sx|sx| |sx mx ex]; try discriminate Fx;
    destruct y as [sy|sy| |sy my ey]; try discriminate Fy;
    try (left; split; [cbn [B64.to_Q]; ring|eexists; reflexivity]).
  destruct (valid_finite_inv sx mx ex Vx) as (Cx & Dx & Ex).
  destruct (valid_finite_inv sy my ey Vy) as (Cy & Dy & Ey).
  set (u := (inject_Z (Zpos (mx * my)) * pow2 (ex + ey))%Q).
  assert (Eu : B64.to_Q (S754_finite sx mx ex) * B64.to_Q (S754_finite sy my ey)
               == sgn (xorb sx sy) u).
  { rewrite !to_Q_sgn, sgn_mult. apply sgn_compat. subst u.
    rewrite Pos2Z.inj_mul, inject_Z_mult, pow2_add. ring. }
  apply (Rounds_compat _ _ _ (Qeq_sym _ _ Eu)).
  unfold B64.mul. cbn [SFmul].
  apply binary_round_aux_Rounds.
  - lia.
  - apply pos_value.
  - apply exact_located. reflexivity.
  - intros k Hk.
    pose proof (located_mag u (ex + ey) (mx * my) loc_Exact
                  (exact_located _ _ _ (Qeq_refl _))) as Hk'.
    rewrite (mag_of_unique _ _ _ Hk Hk').
    pose proof (digits2_pos_mul mx my) as Hd.
    pose proof (Pos2Z.is_pos (digits2_pos mx)).
    pose proof (Pos2Z.is_pos (digits2_pos my)).
    rewrite fx_eq in *. lia.
Qed.

(** *** Addition and subtraction *)

Lemma shl_align_min (m : positive) (e e' : Z) :
  exists m' : positive,
    shl_align m e e' = (m', Z.min e e')
    /\ Zpos m' = Zpos m * 2 ^ (e - Z.min e e').
Proof.
  unfold shl_align. destruct (e' - e) as [|d|d] eqn:Ed.
  - exists m. replace (Z.min e e') with e by lia.
    rewrite Z.sub_diag. split; [reflexivity|simpl; lia].
  - exists m. replace (Z.min e e') with e by lia.
    rewrite Z.sub_diag. split; [reflexivity|simpl; lia].
  - exists (Pos.iter xO m d). replace (Z.min e e') with e' by lia.
    split; [reflexivity|]. rewrite iter_xO_value. f_equal. f_equal. lia.
Qed.

Lemma binary_round_Rounds (s : bool) (m : positive) (e : Z) :
  Rounds (sgn s (inject_Z (Zpos m) * pow2 e)) (binary_round B64.prec B64.emax s m e).
Proof.
  unfold binary_round.
  destruct (shl_align_min m e (fexp B64.prec B64.emax (Zpos (digits2_pos m) + e)))
    as (m' & -> & Hm').
  change (fexp B64.prec B64.emax (Zpos (digits2_pos m) + e))
    with (fx (Zpos (digits2_pos m) + e)) in *.
  set (u := (inject_Z (Zpos m) * pow2 e)%Q).
  set (ez := Z.min e (fx (Zpos (digits2_pos m) + e))) in *.
  assert (HL : located u e (Zpos m) loc_Exact) by (apply exact_located; reflexivity).
  apply binary_round_aux_Rounds.
  - lia.
  - apply pos_value.
  - apply exact_located. subst u. rewrite Hm', inject_Z_mult.
    rewrite <- pow2_Z by lia.
    replace e with ((e - ez) + ez) at 1 by lia. rewrite pow2_add. ring.
  - intros k Hk.
    rewrite (mag_of_unique _ _ _ Hk (located_mag u e m loc_Exact HL)).
    subst ez. lia.
Qed.

Lemma binary_normalize_Rounds (m e : Z) (sz : bool) :
  Rounds (inject_Z m * pow2 e) (binary_normalize B64.prec B64.emax m e sz).
Proof.
  destruct m as [|p|p]; cbn [binary_normalize].
  - left. split; [ring|exists sz; reflexivity].
  - apply (binary_round_Rounds false p e).
  - apply (Rounds_compat (sgn true (inject_Z (Zpos p) * pow2 e))).
    + cbn [sgn]. change (Zneg p) with (- Zpos p). rewrite inject_Z_opp. ring.
    + apply binary_round_Rounds.
Qed.

Lemma aligned_value (s : bool) (m : positive) (e ez : Z) :
  ez <= e ->
  B64.to_Q (S754_finite s m e)
  == inject_Z (cond_Zopp s (Zpos (fst (shl_align m e ez)))) * pow2 ez.
Proof.
  intros Hle. destruct (shl_align_min m e ez) as (m' & -> & Hm').
  cbn [fst]. replace (Z.min e ez) with ez in Hm' by lia.
  assert (E : inject_Z (Zpos m') == inject_Z (Zpos m) * pow2 (e - ez)).
  { rewrite Hm', inject_Z_mult, <- pow2_Z by lia. reflexivity. }
  rewrite to_Q_pow2, !cond_Zopp_Q.
  replace e with ((e - ez) + ez) at 1 by lia. rewrite pow2_add.
  destruct s; rewrite E; ring.
Qed.

(** Addition of finite values rounds the exact sum. *)
Lemma add_Rounds (x y : B64.number) :
  valid_binary B64.prec B64.emax x = true -> B64.is_finite x = true ->
  valid_binary B64.prec B64.emax y = true -> B64.is_finite y = true ->
  Rounds (B64.to_Q x + B64.to_Q y) (B64.add x y).
Proof.
  intros Vx Fx Vy Fy.
  destruct x as [sx|sx| |sx mx ex]; try discriminate Fx;
    destruct y as [sy|sy| |sy my ey]; try discriminate Fy.
  - left. split; [cbn [B64.to_Q]; ring|].
    destruct sx, sy; eexists; reflexivity.
  - apply (Rounds_compat (B64.to_Q (S754_finite sy my ey)));
      [cbn [B64.to_Q]; ring|]. apply Rounds_self; assumption.
  - apply (Rounds_compat (B64.to_Q (S754_finite sx mx ex)));
      [cbn [B64.to_Q]; ring|]. apply Rounds_self; assumption.
  - unfold B64.add. cbn [SFadd].
    set (ez := Z.min ex ey).
    eapply Rounds_compat; [|apply binary_normalize_Rounds].
    rewrite (aligned_value sx mx ex ez) by (subst ez; lia).
    rewrite (aligned_value sy my ey ez) by (subst ez; lia).
    rewrite inject_Z_plus. ring.
Qed.

(** Subtraction is addition of the opposite, in every case. *)
Lemma sub_add_opp (x y : B64.number) : B64.sub x y = B64.add x (SFopp y).
Proof.
  unfold B64.sub, B64.add.
  destruct x as [sx|sx| |sx mx ex]; destruct y as [sy|sy| |sy my ey];
    try reflexivity;
    destruct sx, sy; reflexivity.
Qed.

Lemma to_Q_opp (y : B64.number) : B64.to_Q (SFopp y) == - B64.to_Q y.
Proof.
  destruct y as [s|s| |s m e]; try reflexivity.
  cbn [SFopp]. rewrite !to_Q_sgn. destruct s; cbn; ring.
Qed.

Lemma sub_Rounds (x y : B64.number) :
  valid_binary B64.prec B64.emax x = true -> B64.is_finite x = true ->
  valid_binary B64.prec B64.emax y = true -> B64.is_finite y = true ->
  Rounds (B64.to_Q x - B64.to_Q y) (B64.sub x y).
Proof.
  intros Vx Fx Vy Fy. rewrite sub_add_opp.
  apply (Rounds_compat (B64.to_Q x + B64.to_Q (SFopp y))).
  - rewrite to_Q_opp. ring.
  - apply add_Rounds; try assumption; destruct y; try discriminate Fy; assumption.
Qed.

(** *** Division *)

Lemma inject_Z_pos (p : positive) : (0 < inject_Z (Zpos p))%Q.
Proof. change 0%Q with (inject_Z 0). rewrite <- Zlt_Qlt. lia. Qed.

(** The location [new_location] computes for a remainder. *)
Lemma new_location_spec (q r : Z) (nb : positive) (x : Q) :
  0 <= r < Zpos nb ->
  x == inject_Z q + inject_Z r / inject_Z (Zpos nb) ->
  match new_location (Zpos nb) r with
  | loc_Exact => x == inject_Z q
  | loc_Inexact Lt => inject_Z q < x /\ x < inject_Z q + (1 # 2)
  | loc_Inexact Eq => x == inject_Z q + (1 # 2)
  | loc_Inexact Gt => inject_Z q + (1 # 2) < x /\ x < inject_Z q + 1
  end%Q.
Proof.
  intros Hr Hx. pose proof (inject_Z_pos nb) as Hnb.
  set (f := (inject_Z r / inject_Z (Zpos nb))%Q) in *.
  assert (Hf : (f * inject_Z (Zpos nb) == inject_Z r)%Q).
  { subst f. field. lra. }
  assert (Cmp : forall a b : Z, (inject_Z a < inject_Z b)%Q <-> a < b)
    by (intros; rewrite <- Zlt_Qlt; reflexivity).
  assert (F0 : 0 < r -> (0 < f)%Q).
  { intros H. apply (proj2 (Cmp 0 r)) in H. change (inject_Z 0) with 0%Q in H. nra. }
  assert (F1 : (f < 1)%Q).
  { assert (H : (inject_Z r < inject_Z (Zpos nb))%Q) by (apply Cmp; lia). nra. }
  assert (Flt : 2 * r < Zpos nb -> (f < 1 # 2)%Q).
  { intros H. apply (proj2 (Cmp _ _)) in H. rewrite inject_Z_mult in H.
    change (inject_Z 2) with 2%Q in H. nra. }
  assert (Fgt : Zpos nb < 2 * r -> (1 # 2 < f)%Q).
  { intros H. apply (proj2 (Cmp _ _)) in H. rewrite inject_Z_mult in H.
    change (inject_Z 2) with 2%Q in H. nra. }
  assert (Feq : 2 * r = Zpos nb -> (f == 1 # 2)%Q).
  { intros H.
    assert (H' : (inject_Z (2 * r) == inject_Z (Zpos nb))%Q)
      by (rewrite H; reflexivity).
    rewrite inject_Z_mult in H'. change (inject_Z 2) with 2%Q in H'. nra. }
  unfold new_location, new_location_even, new_location_odd.
  destruct (Z.even (Zpos nb)) eqn:Ev.
  - destruct (Z.eqb_spec r 0) as [->|Hr0].
    + subst f. rewrite Hx. unfold Qdiv. change (inject_Z 0) with 0%Q. ring.
    + destruct (Z.compare_spec (2 * r) (Zpos nb)) as [E|L|G].
      * specialize (Feq E). lra.
      * specialize (Flt L). specialize (F0 ltac:(lia)). lra.
      * specialize (Fgt G). lra.
  - destruct (Z.eqb_spec r 0) as [->|Hr0].
    + subst f. rewrite Hx. unfold Qdiv. change (inject_Z 0) with 0%Q. ring.
    + assert (Hodd : 2 * r <> Zpos nb).
      { intros E. rewrite <- E in Ev. rewrite Z.even_mul in Ev. discriminate Ev. }
      specialize (F0 ltac:(lia)).
      destruct (Z.compare_spec (2 * r + 1) (Zpos nb)) as [E|L|G].
      * specialize (Flt ltac:(lia)). lra.
      * specialize (Flt ltac:(lia)). lra.
      * specialize (Fgt ltac:(lia)). lra.
Qed.

Lemma pow2_digits_bounds (p : positive) :
  (pow2 (Zpos (digits2_pos p) - 1) <= inject_Z (Zpos p)
   /\ inject_Z (Zpos p) < pow2 (Zpos (digits2_pos p)))%Q.
Proof.
  pose proof (digits2_pos_bounds p) as [Lo Hi].
  rewrite !pow2_Z by lia. rewrite <- Zle_Qle, <- Zlt_Qlt. lia.
Qed.

(** The quotient, its exponent and its location, as computed for a
    division, locate the exact quotient with enough bits to round it. *)
Lemma div_core_located (m1 m2 : positive) (e1 e2 : Z) (u : Q) :
  u == (inject_Z (Zpos m1) * pow2 e1) / (inject_Z (Zpos m2) * pow2 e2) ->
  exists (q e' : Z) (l : location),
    SFdiv_core_binary B64.prec B64.emax (Zpos m1) e1 (Zpos m2) e2 = (q, e', l)
    /\ 0 <= q /\ located u e' q l /\ (forall k, mag_of u k -> e' <= fx k).
Proof.
  intros Hu. unfold SFdiv_core_binary. cbn [Zdigits2].
  set (d1 := Zpos (digits2_pos m1)). set (d2 := Zpos (digits2_pos m2)).
  change (fexp B64.prec B64.emax (d1 + e1 - (d2 + e2))) with (fx (d1 + e1 - (d2 + e2))).
  set (e' := Z.min (fx (d1 + e1 - (d2 + e2))) (e1 - e2)).
  set (s := e1 - e2 - e').
  assert (Hs : 0 <= s) by (subst s e'; lia).
  set (m' := match s with
             | Z0 => Zpos m1
             | Zpos _ => Z.shiftl (Zpos m1) s
             | Zneg _ => 0
             end).
  assert (Hm' : m' = Zpos m1 * 2 ^ s).
  { subst m'. destruct s as [|p|p] eqn:Es; [simpl; lia| |lia].
    apply Z.shiftl_mul_pow2. lia. }
  pose proof (Z.div_eucl_eq m' (Zpos m2) ltac:(lia)) as Hdiv.
  pose proof (Z.mod_pos_bound m' (Zpos m2) ltac:(lia)) as Hmod.
  unfold Z.modulo in Hmod.
  destruct (Z.div_eucl m' (Zpos m2)) as [q r].
  assert (Hq : 0 <= q).
  { assert (0 <= m') by (rewrite Hm'; pose proof (Z.pow_pos_nonneg 2 s); lia). nia. }
  exists q, e', (new_location (Zpos m2) r).
  split; [reflexivity|]. split; [exact Hq|].
  pose proof (pow2_pos e1) as P1. pose proof (pow2_pos e2) as P2.
  pose proof (pow2_pos e') as P'. pose proof (pow2_pos s) as Ps.
  pose proof (inject_Z_pos m1) as M1. pose proof (inject_Z_pos m2) as M2.
  assert (E1 : pow2 e1 == pow2 s * pow2 e2 * pow2 e').
  { rewrite <- !pow2_add. replace (s + e2 + e') with e1 by (subst s; lia). reflexivity. }
  split.
  - unfold located. apply (new_location_spec q r m2 (scaled u e')); [lia|].
    assert (Em : inject_Z (Zpos m1) * pow2 s
                 == inject_Z q * inject_Z (Zpos m2) + inject_Z r).
    { rewrite pow2_Z by exact Hs.
      rewrite <- !inject_Z_mult, <- inject_Z_plus.
      rewrite <- Hm', Hdiv. rewrite (Z.mul_comm (Zpos m2) q). reflexivity. }
    unfold scaled. rewrite Hu, E1.
    transitivity ((inject_Z (Zpos m1) * pow2 s) / inject_Z (Zpos m2))%Q.
    + field. repeat split; lra.
    + rewrite Em. field. lra.
  - intros k Hk.
    assert (Hz : d1 + e1 - (d2 + e2) <= k).
    { destruct (Z.le_gt_cases (d1 + e1 - (d2 + e2)) k) as [|Hgt]; [assumption|exfalso].
      destruct Hk as [_ Hk].
      pose proof (pow2_le k (d1 + e1 - (d2 + e2) - 1) ltac:(lia)) as Hle.
      pose proof (pow2_digits_bounds m1) as [L1 _].
      pose proof (pow2_digits_bounds m2) as [_ U2].
      fold d1 in L1. fold d2 in U2.
      assert (Ez : pow2 (d1 + e1 - (d2 + e2) - 1) * pow2 d2 * pow2 e2
                   == pow2 (d1 - 1) * pow2 e1).
      { rewrite <- !pow2_add. replace (d1 + e1 - (d2 + e2) - 1 + d2 + e2)
          with (d1 - 1 + e1) by lia. reflexivity. }
      pose proof (pow2_pos (d1 + e1 - (d2 + e2) - 1)) as Pz.
      pose proof (pow2_pos d2) as Pd2. pose proof (pow2_pos (d1 - 1)) as Pd1.
      assert (Hu' : u * (inject_Z (Zpos m2) * pow2 e2) == inject_Z (Zpos m1) * pow2 e1).
      { rewrite Hu. field. split; lra. }
      set (Z0' := pow2 (d1 + e1 - (d2 + e2) - 1)) in *.
      assert (Hlt : (u * (inject_Z (Zpos m2) * pow2 e2) < Z0' * (pow2 d2 * pow2 e2))%Q).
      { assert (Hu1 : (u < Z0')%Q) by lra.
        set (A := (inject_Z (Zpos m2) * pow2 e2)%Q) in *.
        assert (HA : (0 < A)%Q) by (subst A; nra).
        assert (HAB : (A < pow2 d2 * pow2 e2)%Q).
        { subst A. apply Qmult_lt_compat_r; assumption. }
        apply Qlt_trans with (Z0' * A)%Q.
        - apply Qmult_lt_compat_r; assumption.
        - apply Qmult_lt_l; assumption. }
      assert (Hge : (pow2 (d1 - 1) * pow2 e1 <= inject_Z (Zpos m1) * pow2 e1)%Q) by nra.
      rewrite Hu' in Hlt. rewrite Qmult_assoc, Ez in Hlt. lra. }
    assert (Hfx : fx (d1 + e1 - (d2 + e2)) <= fx k) by (rewrite !fx_eq; lia).
    subst e'. lia.
Qed.

Lemma sgn_div (s t : bool) (a b : Q) :
  ~ b == 0 -> sgn s a / sgn t b == sgn (xorb s t) (a / b).
Proof. intros Hb. destruct s, t; cbn; field; exact Hb. Qed.

Lemma quotient_Rounds (s : bool) (m1 m2 : positive) (e1 e2 : Z) :
  Rounds (sgn s ((inject_Z (Zpos m1) * pow2 e1) / (inject_Z (Zpos m2) * pow2 e2)))
    (let '(q, e, l) := SFdiv_core_binary B64.prec B64.emax (Zpos m1) e1 (Zpos m2) e2 in
     binary_round_aux B64.prec B64.emax s q e l).
Proof.
  set (u := ((inject_Z (Zpos m1) * pow2 e1) / (inject_Z (Zpos m2) * pow2 e2))%Q).
  destruct (div_core_located m1 m2 e1 e2 u (Qeq_refl _))
    as (q & e & l & -> & Hq & HL & Hk).
  apply binary_round_aux_Rounds; try assumption.
  subst u. pose proof (pos_value m1 e1). pose proof (pos_value m2 e2).
  apply Qlt_shift_div_l; [assumption|lra].
Qed.

(** Division of a finite value by a finite non-zero one rounds the exact
    quotient. *)
Lemma div_Rounds (x : B64.number) (sy : bool) (my : positive) (ey : Z) :
  valid_binary B64.prec B64.emax x = true -> B64.is_finite x = true ->
  Rounds (B64.to_Q x / B64.to_Q (S754_finite sy my ey))
    (B64.div x (S754_finite sy my ey)).
Proof.
  intros Vx Fx. pose proof (pos_value my ey) as Py.
  destruct x as [sx|sx| |sx mx ex]; try discriminate Fx.
  - left. split; [|eexists; reflexivity].
    cbn [B64.to_Q]. unfold Qdiv. ring.
  - unfold B64.div. cbn [SFdiv].
    eapply Rounds_compat; [|apply quotient_Rounds].
    rewrite !to_Q_sgn. symmetry. apply sgn_div. lra.
Qed.

(** *** Decimal literals *)

Lemma pow10_Z (e : Z) : 0 <= e -> (pow10 e == inject_Z (10 ^ e))%Q.
Proof. intros He. unfold pow10. rewrite Zpower_Qpower by exact He. reflexivity. Qed.

Lemma pow10_neg (e : Z) : e < 0 -> (pow10 e == / inject_Z (10 ^ (- e)))%Q.
Proof.
  intros He. unfold pow10. replace e with (- - e) at 1 by lia.
  rewrite Qpower_opp, Zpower_Qpower by lia. reflexivity.
Qed.

(** A decimal literal reads as the rounding of its exact value. *)
Lemma of_decimal_Rounds (s : bool) (M E : Z) :
  0 <= M -> Rounds (sgn s (inject_Z M * pow10 E)) (B64.of_decimal s M E).
Proof.
  intros HM. unfold B64.of_decimal. destruct M as [|m|m]; [| |lia].
  - left. split; [|exists s; reflexivity]. destruct s; cbn; ring.
  - destruct (Z.leb_spec 0 E) as [HE|HE].
    + eapply Rounds_compat; [|apply binary_round_Rounds].
      apply sgn_compat. change (pow2 0) with 1%Q.
      rewrite pow10_Z by exact HE.
      assert (H10 : 0 < 10 ^ E) by (apply Z.pow_pos_nonneg; lia).
      rewrite Pos2Z.inj_mul, Z2Pos.id by exact H10.
      rewrite inject_Z_mult. ring.
    + assert (H10 : 0 < 10 ^ (- E)) by (apply Z.pow_pos_nonneg; lia).
      destruct (10 ^ (- E)) as [|d|d] eqn:Ed; try lia.
      eapply Rounds_compat; [|apply (quotient_Rounds s m d 0 0)].
      apply sgn_compat. change (pow2 0) with 1%Q.
      rewrite pow10_neg by exact HE. rewrite Ed.
      pose proof (inject_Z_pos d). field. lra.
Qed.

(** *** The rounding error *)

Lemma mag_of_le (u : Q) (k K : Z) : mag_of u k -> (u < pow2 K)%Q -> k <= K.
Proof.
  intros [Hlo _] HK. destruct (Z.le_gt_cases k K) as [|Hgt]; [assumption|exfalso].
  pose proof (pow2_le K (k - 1) ltac:(lia)). lra.
Qed.

Lemma Qabs_sgn (s : bool) (a b : Q) : Qabs (sgn s a - sgn s b) == Qabs (a - b).
Proof.
  destruct s; cbn [sgn]; [|reflexivity].
  rewrite <- (Qabs_opp (a - b)). apply Qabs_wd. ring.
Qed.

(** A value below [2 ^ K], [K <= 1023], rounds to a finite number that is
    off by at most half a unit in the last place of [2 ^ K]. *)
Lemma Rounds_error (v : Q) (r : B64.number) (K : Z) :
  Rounds v r -> (Qabs v < pow2 K)%Q -> K <= 1023 ->
  B64.is_finite r = true /\ (Qabs (B64.to_Q r - v) <= pow2 (fx K - 1))%Q.
Proof.
  intros [[H0 [s ->]]|(s & k & Hp & Hk & ->)] HK HK'.
  - split; [reflexivity|]. cbn [B64.to_Q]. rewrite H0.
    pose proof (pow2_pos (fx K - 1)). cbn. lra.
  - set (u := sgn s v) in *.
    assert (Hu : (u < pow2 K)%Q).
    { assert (E : u == Qabs v).
      { subst u. destruct s; cbn [sgn] in *.
        - rewrite Qabs_neg by lra. reflexivity.
        - rewrite Qabs_pos by lra. reflexivity. }
      rewrite E. exact HK. }
    pose proof (mag_of_le u k K Hk Hu) as HkK.
    pose proof (rne_bound u k Hk) as Hn.
    assert (Hfin : B64.is_finite (round_to s u k) = true).
    { unfold round_to, pack.
      destruct (rne (scaled u (fx k))) as [|p|p]; [reflexivity| |lia].
      destruct (_ <=? 53).
      - destruct (Z.leb_spec (fx k) 971); [reflexivity|rewrite fx_eq in *; lia].
      - destruct (Z.leb_spec (fx k + 1) 971); [reflexivity|rewrite fx_eq in *; lia]. }
    split; [exact Hfin|].
    unfold round_to in *. rewrite (pack_value s _ _ Hn Hfin).
    assert (Ev : v == sgn s u) by (subst u; symmetry; apply sgn_sgn).
    rewrite Ev, Qabs_sgn.
    pose proof (rne_error (scaled u (fx k))) as Herr.
    pose proof (pow2_pos (fx k)) as Pk.
    set (n := inject_Z (rne (scaled u (fx k)))) in *.
    assert (Es : n * pow2 (fx k) - u == (n - scaled u (fx k)) * pow2 (fx k)).
    { rewrite (scaled_mult u (fx k)) at 1. ring. }
    rewrite Es, Qabs_Qmult, (Qabs_pos (pow2 (fx k))) by lra.
    apply Qle_trans with ((1 # 2) * pow2 (fx k))%Q.
    + apply Qmult_le_compat_r; [exact Herr|lra].
    + assert (E2 : (1 # 2) * pow2 (fx k) == pow2 (fx k - 1)).
      { replace (fx k) with ((fx k - 1) + 1) at 1 by lia. rewrite pow2_succ. ring. }
      rewrite E2. apply pow2_le. rewrite !fx_eq. lia.
Qed.

(** *** Rounding is monotone *)

Lemma leb_finite_pos (m1 m2 : positive) (e1 e2 : Z) :
  e1 < e2 \/ (e1 = e2 /\ Zpos m1 <= Zpos m2) ->
  B64.leb (S754_finite false m1 e1) (S754_finite false m2 e2) = true.
Proof.
  intros H. unfold B64.leb, SFleb. cbn [SFcompare].
  destruct (Z.compare_spec e1 e2) as [E|L|G]; [|reflexivity|lia].
  change (Pos.compare_cont Eq m1 m2) with (Pos.compare m1 m2).
  destruct (Pos.compare_spec m1 m2); try reflexivity; lia.
Qed.

Lemma pack_mono (n1 e1 n2 e2 : Z) :
  0 <= n1 <= 2 ^ 53 -> 0 <= n2 <= 2 ^ 53 ->
  (e1 = e2 /\ n1 <= n2) \/ (e1 < e2 /\ 2 ^ 52 <= n2) ->
  B64.leb (pack false n1 e1) (pack false n2 e2) = true.
Proof.
  intros H1 H2 H.
  assert (P52 : 0 < 2 ^ 52) by reflexivity.
  destruct n2 as [|p2|p2]; [| |lia].
  { assert (n1 = 0) by lia. subst n1. reflexivity. }
  destruct n1 as [|p1|p1]; [| |lia].
  { unfold pack. destruct (_ <=? 53); [destruct (e2 <=? 971)|destruct (e2 + 1 <=? 971)];
      reflexivity. }
  unfold pack.
  destruct (Z.leb_spec (Zpos (digits2_pos p1)) 53) as [D1|D1];
    destruct (Z.leb_spec (Zpos (digits2_pos p2)) 53) as [D2|D2].
  - destruct (Z.leb_spec e1 971); destruct (Z.leb_spec e2 971); try reflexivity; try lia.
    apply leb_finite_pos. lia.
  - assert (p2 = 9007199254740992%positive) by (apply digits_2pow53; lia). subst p2.
    cbn [Pos.div2].
    destruct (Z.leb_spec e1 971); destruct (Z.leb_spec (e2 + 1) 971);
      try reflexivity; try lia.
    apply leb_finite_pos. lia.
  - assert (p1 = 9007199254740992%positive) by (apply digits_2pow53; lia). subst p1.
    cbn [Pos.div2].
    assert (He : e1 < e2 /\ 2 ^ 52 <= Zpos p2).
    { destruct H as [[_ Hn]|H]; [exfalso|exact H].
      pose proof (digits2_pos_ge p2 53 Hn). lia. }
    destruct (Z.leb_spec (e1 + 1) 971); destruct (Z.leb_spec e2 971);
      try reflexivity; try lia.
    apply leb_finite_pos.
    change (Zpos 4503599627370496) with (2 ^ 52). lia.
  - assert (p1 = 9007199254740992%positive) by (apply digits_2pow53; lia). subst p1.
    assert (p2 = 9007199254740992%positive) by (apply digits_2pow53; lia). subst p2.
    cbn [Pos.div2].
    destruct (Z.leb_spec (e1 + 1) 971); destruct (Z.leb_spec (e2 + 1) 971);
      try reflexivity; try lia.
    apply leb_finite_pos. lia.
Qed.

Lemma scaled_mono (u1 u2 : Q) (e : Z) : (u1 <= u2)%Q -> (scaled u1 e <= scaled u2 e)%Q.
Proof.
  intros H. unfold scaled, Qdiv. apply Qmult_le_compat_r; [exact H|].
  apply Qlt_le_weak, Qinv_lt_0_compat, pow2_pos.
Qed.

(** Rounding is monotone on positive values. *)
Lemma round_to_mono (u1 u2 : Q) (k1 k2 : Z) :
  (u1 <= u2)%Q -> mag_of u1 k1 -> mag_of u2 k2 ->
  B64.leb (round_to false u1 k1) (round_to false u2 k2) = true.
Proof.
  intros Hu K1 K2.
  assert (Hk : k1 <= k2).
  { apply (mag_of_le u1 k1 k2 K1). destruct K2 as [_ K2]. lra. }
  unfold round_to. apply pack_mono; try (apply rne_bound; assumption).
  destruct (Z.eq_dec (fx k1) (fx k2)) as [E|NE].
  - left. split; [exact E|]. rewrite E. apply rne_mono, scaled_mono, Hu.
  - right. split; [rewrite !fx_eq in *; lia|].
    apply rne_lower; [exact K2|]. rewrite !fx_eq in *. lia.
Qed.

Lemma leb_nonpos_nonneg (a b : B64.number) :
  is_nonpos a = true -> is_nonneg b = true -> B64.leb a b = true.
Proof.
  destruct a as [sa|[|]| |[|] ma ea]; destruct b as [sb|[|]| |[|] mb eb];
    try discriminate; reflexivity.
Qed.

Lemma pack_nonneg (n e : Z) : 0 <= n -> is_nonneg (pack false n e) = true.
Proof.
  intros Hn. unfold pack. destruct n as [|p|p]; [reflexivity| |lia].
  destruct (_ <=? 53); [destruct (e <=? 971)|destruct (e + 1 <=? 971)]; reflexivity.
Qed.

Lemma pack_nonpos (n e : Z) : 0 <= n -> is_nonpos (pack true n e) = true.
Proof.
  intros Hn. unfold pack. destruct n as [|p|p]; [reflexivity| |lia].
  destruct (_ <=? 53); [destruct (e <=? 971)|destruct (e + 1 <=? 971)]; reflexivity.
Qed.

Lemma pack_opp (n e : Z) : pack true n e = SFopp (pack false n e).
Proof.
  unfold pack. destruct n as [|p|p]; try reflexivity.
  destruct (_ <=? 53); [destruct (e <=? 971)|destruct (e + 1 <=? 971)]; reflexivity.
Qed.

Lemma leb_opp (a b : B64.number) : B64.leb (SFopp a) (SFopp b) = B64.leb b a.
Proof.
  unfold B64.leb, SFleb.
  destruct a as [sa|[|]| |[|] ma ea]; destruct b as [sb|[|]| |[|] mb eb];
    try reflexivity; cbn [SFopp SFcompare negb];
    rewrite (Z.compare_antisym ea eb);
    change (Pos.compare_cont Eq ma mb) with (Pos.compare ma mb);
    change (Pos.compare_cont Eq mb ma) with (Pos.compare mb ma);
    rewrite (Pos.compare_antisym ma mb);
    destruct (Z.compare ea eb); cbn [CompOpp]; try reflexivity;
    destruct (Pos.compare ma mb); reflexivity.
Qed.

(** Rounding is monotone: a smaller exact value does not round to a larger
    number. *)
Theorem Rounds_mono (v1 v2 : Q) (r1 r2 : B64.number) :
  (v1 <= v2)%Q -> Rounds v1 r1 -> Rounds v2 r2 -> B64.leb r1 r2 = true.
Proof.
  intros Hv [[Z1 [s1 ->]]|(s1 & k1 & P1 & K1 & ->)]
            [[Z2 [s2 ->]]|(s2 & k2 & P2 & K2 & ->)].
  - reflexivity.
  - destruct s2; cbn [sgn] in *; [exfalso; lra|].
    apply leb_nonpos_nonneg; [reflexivity|].
    apply pack_nonneg, rne_bound, K2.
  - destruct s1; cbn [sgn] in *; [|exfalso; lra].
    apply leb_nonpos_nonneg; [|reflexivity].
    apply pack_nonpos, rne_bound, K1.
  - destruct s1, s2; cbn [sgn] in *.
    + unfold round_to. rewrite !pack_opp, leb_opp.
      apply round_to_mono; [lra|assumption|assumption].
    + apply leb_nonpos_nonneg;
        [apply pack_nonpos, rne_bound, K1|apply pack_nonneg, rne_bound, K2].
    + exfalso. lra.
    + apply round_to_mono; assumption.
Qed.

(** *** Order and values *)

(** Of two valid finite numbers the one with the smaller exponent has the
    smaller magnitude. *)
Lemma canonical_value_lt (s1 s2 : bool) (m1 m2 : positive) (e1 e2 : Z) :
  valid_binary B64.prec B64.emax (S754_finite s1 m1 e1) = true ->
  valid_binary B64.prec B64.emax (S754_finite s2 m2 e2) = true ->
  e1 < e2 ->
  (inject_Z (Zpos m1) * pow2 e1 < inject_Z (Zpos m2) * pow2 e2)%Q.
Proof.
  intros V1 V2 He.
  destruct (valid_finite_inv _ _ _ V1) as (C1 & D1 & E1).
  destruct (valid_finite_inv _ _ _ V2) as (C2 & D2 & E2).
  pose proof (pow2_digits_bounds m1) as [_ U1].
  pose proof (pow2_digits_bounds m2) as [L2 _].
  rewrite fx_eq in C1, C2.
  assert (Hd2 : Zpos (digits2_pos m2) = 53) by lia. rewrite Hd2 in L2.
  pose proof (pow2_le (Zpos (digits2_pos m1)) 53 D1) as H53.
  pose proof (pow2_pos e1) as P1. pose proof (pow2_pos e2) as P2.
  apply Qlt_le_trans with (pow2 53 * pow2 e1)%Q.
  - apply Qmult_lt_compat_r; [exact P1|lra].
  - apply Qle_trans with (pow2 (53 - 1) * pow2 e2)%Q.
    + rewrite <- !pow2_add. apply pow2_le. lia.
    + apply Qmult_le_compat_r; [exact L2|lra].
Qed.

Lemma same_exponent_le (m1 m2 : positive) (e : Z) :
  Zpos m1 <= Zpos m2 ->
  (inject_Z (Zpos m1) * pow2 e <= inject_Z (Zpos m2) * pow2 e)%Q.
Proof.
  intros H. apply Qmult_le_compat_r.
  - rewrite <- Zle_Qle. exact H.
  - apply Qlt_le_weak, pow2_pos.
Qed.

(** On valid finite numbers, [<=] of the language is [<=] of the values. *)
Lemma leb_to_Q (x y : B64.number) :
  valid_binary B64.prec B64.emax x = true -> B64.is_finite x = true ->
  valid_binary B64.prec B64.emax y = true -> B64.is_finite y = true ->
  B64.leb x y = true -> (B64.to_Q x <= B64.to_Q y)%Q.
Proof.
  intros Vx Fx Vy Fy.
  destruct x as [sx|sx| |sx mx ex]; try discriminate Fx;
    destruct y as [sy|sy| |sy my ey]; try discriminate Fy.
  - intros _. cbn [B64.to_Q]. lra.
  - rewrite to_Q_sgn. pose proof (pos_value my ey).
    destruct sy; cbn; [discriminate|intros _; lra].
  - rewrite to_Q_sgn. pose proof (pos_value mx ex).
    destruct sx; cbn; [intros _; lra|discriminate].
  - rewrite !to_Q_sgn.
    pose proof (pos_value mx ex) as Px. pose proof (pos_value my ey) as Py.
    unfold B64.leb, SFleb. cbn [SFcompare].
    change (Pos.compare_cont Eq mx my) with (Pos.compare mx my).
    destruct sx, sy; cbn [sgn]; try (intros _; lra); try discriminate.
    + destruct (Z.compare_spec ex ey) as [E|L|G].
      * subst ey. destruct (Pos.compare_spec mx my) as [E|L|G]; cbn [CompOpp];
          try discriminate; intros _;
          pose proof (same_exponent_le my mx ex ltac:(lia)); lra.
      * discriminate.
      * intros _. pose proof (canonical_value_lt _ _ _ _ _ _ Vy Vx G). lra.
    + destruct (Z.compare_spec ex ey) as [E|L|G].
      * subst ey. destruct (Pos.compare_spec mx my) as [E|L|G];
          try discriminate; intros _;
          pose proof (same_exponent_le mx my ex ltac:(lia)); lra.
      * intros _. pose proof (canonical_value_lt _ _ _ _ _ _ Vx Vy L). lra.
      * discriminate.
Qed.

(** *** Monotone operations *)

Lemma good_cases (x : B64.number) :
  good x ->
  (valid_binary B64.prec B64.emax x = true /\ B64.is_finite x = true)
  \/ exists s, x = S754_infinity s.
Proof.
  intros [V N]. destruct x as [s|s| |s m e]; try discriminate N.
  - left. split; [exact V|reflexivity].
  - right. exists s. reflexivity.
  - left. split; [exact V|reflexivity].
Qed.

Lemma leb_neg_infinity (y : B64.number) :
  B64.isNaN y = false -> B64.leb (S754_infinity true) y = true.
Proof. destruct y as [s|[|]| |s m e]; try discriminate; reflexivity. Qed.

Lemma leb_pos_infinity (x : B64.number) :
  B64.isNaN x = false -> B64.leb x (S754_infinity false) = true.
Proof. destruct x as [s|[|]| |[|] m e]; try discriminate; reflexivity. Qed.

Lemma leb_from_pos_infinity (y : B64.number) :
  B64.leb (S754_infinity false) y = true -> y = S754_infinity false.
Proof. destruct y as [s|[|]| |s m e]; try discriminate; reflexivity. Qed.

Lemma leb_to_neg_infinity (x : B64.number) :
  B64.leb x (S754_infinity true) = true -> x = S754_infinity true.
Proof. destruct x as [s|[|]| |[|] m e]; try discriminate; reflexivity. Qed.

Section Monotone.

Variable f : B64.number -> B64.number.
Variable g : Q -> Q.

Hypothesis f_Rounds :
  forall x, valid_binary B64.prec B64.emax x = true -> B64.is_finite x = true ->
            Rounds (g (B64.to_Q x)) (f x).
Hypothesis g_mono : forall a b : Q, (a <= b)%Q -> (g a <= g b)%Q.
Hypothesis f_infinity : forall s, f (S754_infinity s) = S754_infinity s.

Lemma monotone_good (x : B64.number) : good x -> good (f x).
Proof.
  intros Hx. destruct (good_cases x Hx) as [[V F]|[s ->]].
  - exact (Rounds_valid _ _ (f_Rounds x V F)).
  - rewrite f_infinity. split; reflexivity.
Qed.

Lemma monotone_leb (x y : B64.number) :
  good x -> good y -> B64.leb x y = true -> B64.leb (f x) (f y) = true.
Proof.
  intros Hx Hy Hle.
  pose proof (monotone_good x Hx) as [_ Nx].
  pose proof (monotone_good y Hy) as [_ Ny].
  destruct (good_cases x Hx) as [[Vx Fx]|[[|] ->]].
  - destruct (good_cases y Hy) as [[Vy Fy]|[[|] ->]].
    + apply (Rounds_mono (g (B64.to_Q x)) (g (B64.to_Q y))).
      * apply g_mono, leb_to_Q; assumption.
      * apply f_Rounds; assumption.
      * apply f_Rounds; assumption.
    + apply leb_to_neg_infinity in Hle. subst x. discriminate Fx.
    + rewrite f_infinity. apply leb_pos_infinity. exact Nx.
  - rewrite f_infinity. apply leb_neg_infinity. exact Ny.
  - apply leb_from_pos_infinity in Hle. subst y. rewrite f_infinity. reflexivity.
Qed.

End Monotone.

Lemma monotone_id : monotone (fun x => x).
Proof. split; auto. Qed.

Lemma monotone_compose (f1 f2 : B64.number -> B64.number) :
  monotone f1 -> monotone f2 -> monotone (fun x => f2 (f1 x)).
Proof.
  intros [G1 M1] [G2 M2]. split.
  - intros x Hx. apply G2, G1, Hx.
  - intros x y Hx Hy Hle. apply M2; [apply G1, Hx|apply G1, Hy|].
    apply M1; assumption.
Qed.

Lemma monotone_add_const (c : B64.number) :
  valid_binary B64.prec B64.emax c = true -> B64.is_finite c = true ->
  monotone (fun x => B64.add x c).
Proof.
  intros Vc Fc.
  assert (HR : forall x, valid_binary B64.prec B64.emax x = true ->
                         B64.is_finite x = true ->
                         Rounds ((fun a => a + B64.to_Q c)%Q (B64.to_Q x)) (B64.add x c)).
  { intros x Vx Fx. apply add_Rounds; assumption. }
  assert (Hg : forall a b : Q, (a <= b)%Q -> (a + B64.to_Q c <= b + B64.to_Q c)%Q)
    by (intros; lra).
  assert (Hi : forall s, B64.add (S754_infinity s) c = S754_infinity s).
  { intros s. destruct c; try discriminate Fc; reflexivity. }
  split.
  - apply (monotone_good _ _ HR Hi).
  - apply (monotone_leb _ _ HR Hg Hi).
Qed.

Lemma monotone_sub_const (c : B64.number) :
  valid_binary B64.prec B64.emax c = true -> B64.is_finite c = true ->
  monotone (fun x => B64.sub x c).
Proof.
  intros Vc Fc.
  assert (HR : forall x, valid_binary B64.prec B64.emax x = true ->
                         B64.is_finite x = true ->
                         Rounds ((fun a => a - B64.to_Q c)%Q (B64.to_Q x)) (B64.sub x c)).
  { intros x Vx Fx. apply sub_Rounds; assumption. }
  assert (Hg : forall a b : Q, (a <= b)%Q -> (a - B64.to_Q c <= b - B64.to_Q c)%Q)
    by (intros; lra).
  assert (Hi : forall s, B64.sub (S754_infinity s) c = S754_infinity s).
  { intros s. destruct c; try discriminate Fc; reflexivity. }
  split.
  - apply (monotone_good _ _ HR Hi).
  - apply (monotone_leb _ _ HR Hg Hi).
Qed.

Lemma monotone_mul_const (m : positive) (e : Z) :
  valid_binary B64.prec B64.emax (S754_finite false m e) = true ->
  monotone (fun x => B64.mul x (S754_finite false m e)).
Proof.
  intros Vc. set (c := S754_finite false m e) in *.
  assert (Pc : (0 < B64.to_Q c)%Q).
  { subst c. rewrite to_Q_sgn. cbn [sgn]. apply pos_value. }
  assert (HR : forall x, valid_binary B64.prec B64.emax x = true ->
                         B64.is_finite x = true ->
                         Rounds ((fun a => a * B64.to_Q c)%Q (B64.to_Q x)) (B64.mul x c)).
  { intros x Vx Fx. apply mul_Rounds; try assumption. reflexivity. }
  assert (Hg : forall a b : Q, (a <= b)%Q -> (a * B64.to_Q c <= b * B64.to_Q c)%Q).
  { intros a b Hab. apply Qmult_le_compat_r; lra. }
  assert (Hi : forall s, B64.mul (S754_infinity s) c = S754_infinity s).
  { intros s. destruct s; reflexivity. }
  split.
  - apply (monotone_good _ _ HR Hi).
  - apply (monotone_leb _ _ HR Hg Hi).
Qed.

Lemma monotone_div_const (m : positive) (e : Z) :
  monotone (fun x => B64.div x (S754_finite false m e)).
Proof.
  set (c := S754_finite false m e) in *.
  assert (Pc : (0 < B64.to_Q c)%Q).
  { subst c. rewrite to_Q_sgn. cbn [sgn]. apply pos_value. }
  assert (HR : forall x, valid_binary B64.prec B64.emax x = true ->
                         B64.is_finite x = true ->
                         Rounds ((fun a => a / B64.to_Q c)%Q (B64.to_Q x)) (B64.div x c)).
  { intros x Vx Fx. apply div_Rounds; assumption. }
  assert (Hg : forall a b : Q, (a <= b)%Q -> (a / B64.to_Q c <= b / B64.to_Q c)%Q).
  { intros a b Hab. unfold Qdiv. apply Qmult_le_compat_r; [exact Hab|].
    apply Qlt_le_weak, Qinv_lt_0_compat, Pc. }
  assert (Hi : forall s, B64.div (S754_infinity s) c = S754_infinity s).
  { intros s. destruct s; reflexivity. }
  split.
  - apply (monotone_good _ _ HR Hi).
  - apply (monotone_leb _ _ HR Hg Hi).
Qed.

(** *** The conversions are monotone *)

(** The constants of the script, as binary64 values. *)
Lemma n5_eq : @n5 B64.number binary64 = S754_finite false 5629499534213120 (-50).
Proof. vm_compute. reflexivity. Qed.
Lemma n9_eq : @n9 B64.number binary64 = S754_finite false 5066549580791808 (-49).
Proof. vm_compute. reflexivity. Qed.
Lemma n32_eq : @n32 B64.number binary64 = S754_finite false 4503599627370496 (-47).
Proof. vm_compute. reflexivity. Qed.
Lemma n100_eq : @n100 B64.number binary64 = S754_finite false 7036874417766400 (-46).
Proof. vm_compute. reflexivity. Qed.
Lemma n273_15_eq :
  @n273_15 B64.number binary64 = S754_finite false 4805305618032230 (-44).
Proof. vm_compute. reflexivity. Qed.

Lemma monotone_convertToCelsius (unit : string) :
  monotone (fun x : B64.number => convertToCelsius x unit).
Proof.
  unfold convertToCelsius.
  destruct (unit =? "celsius")%string; [apply monotone_id|].
  destruct (unit =? "fahrenheit")%string.
  - cbn [num_sub num_mul num_div binary64]. rewrite n5_eq, n9_eq, n32_eq.
    apply (monotone_compose (fun x => B64.mul (B64.sub x _) _) (fun x => B64.div x _));
      [|apply monotone_div_const].
    apply (monotone_compose (fun x => B64.sub x _) (fun x => B64.mul x _));
      [apply monotone_sub_const|apply monotone_mul_const]; reflexivity.
  - destruct (unit =? "kelvin")%string; [|apply monotone_id].
    cbn [num_sub binary64]. rewrite n273_15_eq.
    apply monotone_sub_const; reflexivity.
Qed.

Lemma monotone_convertFromCelsius (unit : string) :
  monotone (fun x : B64.number => convertFromCelsius x unit).
Proof.
  unfold convertFromCelsius.
  destruct (unit =? "celsius")%string; [apply monotone_id|].
  destruct (unit =? "fahrenheit")%string.
  - cbn [num_add num_mul num_div binary64]. rewrite n5_eq, n9_eq, n32_eq.
    apply (monotone_compose (fun x => B64.div (B64.mul x _) _) (fun x => B64.add x _));
      [|apply monotone_add_const; reflexivity].
    apply (monotone_compose (fun x => B64.mul x _) (fun x => B64.div x _));
      [apply monotone_mul_const; reflexivity|apply monotone_div_const].
  - destruct (unit =? "kelvin")%string; [|apply monotone_id].
    cbn [num_add binary64]. rewrite n273_15_eq.
    apply monotone_add_const; reflexivity.
Qed.

(** On binary64 values other than NaN the conversion between any two units
    keeps [<=]. *)
Theorem convertTo_monotone (fromUnit toUnit : string) :
  monotone (fun x : B64.number => convertTo x fromUnit toUnit).
Proof.
  unfold convertTo.
  apply (monotone_compose (fun x => convertToCelsius x fromUnit)
           (fun c => convertFromCelsius c toUnit)).
  - apply monotone_convertToCelsius.
  - apply monotone_convertFromCelsius.
Qed.

(** ** Error bounds *)

Lemma Rounds_approx (v : Q) (r : B64.number) :
  Rounds v r -> (- big < v)%Q -> (v < big)%Q -> approx r v eps.
Proof.
  intros HR Hlo Hhi.
  assert (Ha : (Qabs v < pow2 40)%Q).
  { change (pow2 40) with big. apply Qabs_Qlt_condition. split; assumption. }
  destruct (Rounds_error v r 40 HR Ha ltac:(lia)) as [Hf He].
  destruct (Rounds_valid v r HR) as [Hv _].
  change (pow2 (fx 40 - 1)) with eps in He.
  apply Qabs_Qle_condition in He.
  split; [split; assumption|]. lra.
Qed.

Lemma approx_exact (x : B64.number) :
  fin x -> approx x (B64.to_Q x) 0.
Proof. intros H. split; [exact H|]. lra. Qed.

Lemma approx_weaken (x : B64.number) (q q' d d' : Q) :
  approx x q d -> (q' - d' <= q - d)%Q -> (q + d <= q' + d')%Q -> approx x q' d'.
Proof. intros [F [L U]] H1 H2. split; [exact F|]. lra. Qed.

Lemma approx_add (x c : B64.number) (q d qc : Q) :
  approx x q d -> fin c -> B64.to_Q c == qc ->
  (- big < q + qc - d)%Q -> (q + qc + d < big)%Q ->
  approx (B64.add x c) (q + qc) (d + eps).
Proof.
  intros [[Vx Fx] [L U]] [Vc Fc] Ec Hlo Hhi.
  pose proof (add_Rounds x c Vx Fx Vc Fc) as HR.
  destruct (Rounds_approx _ _ HR) as [F [L' U']]; [lra|lra|].
  split; [exact F|]. lra.
Qed.

Lemma approx_sub (x c : B64.number) (q d qc : Q) :
  approx x q d -> fin c -> B64.to_Q c == qc ->
  (- big < q - qc - d)%Q -> (q - qc + d < big)%Q ->
  approx (B64.sub x c) (q - qc) (d + eps).
Proof.
  intros [[Vx Fx] [L U]] [Vc Fc] Ec Hlo Hhi.
  pose proof (sub_Rounds x c Vx Fx Vc Fc) as HR.
  destruct (Rounds_approx _ _ HR) as [F [L' U']]; [lra|lra|].
  split; [exact F|]. lra.
Qed.

Lemma approx_mul (x c : B64.number) (q d qc : Q) :
  approx x q d -> fin c -> B64.to_Q c == qc -> (0 < qc)%Q ->
  (- big < (q - d) * qc)%Q -> ((q + d) * qc < big)%Q ->
  approx (B64.mul x c) (q * qc) (d * qc + eps).
Proof.
  intros [[Vx Fx] [L U]] [Vc Fc] Ec Pc Hlo Hhi.
  pose proof (mul_Rounds x c Vx Fx Vc Fc) as HR.
  assert (L1 : ((q - d) * qc <= B64.to_Q x * B64.to_Q c)%Q).
  { rewrite Ec. apply Qmult_le_compat_r; lra. }
  assert (U1 : (B64.to_Q x * B64.to_Q c <= (q + d) * qc)%Q).
  { rewrite Ec. apply Qmult_le_compat_r; lra. }
  destruct (Rounds_approx _ _ HR) as [F [L' U']]; [lra|lra|].
  split; [exact F|]. lra.
Qed.

Lemma approx_div (x : B64.number) (m : positive) (e : Z) (q d qc : Q) :
  approx x q d -> B64.to_Q (S754_finite false m e) == qc -> (0 < qc)%Q ->
  (- big < (q - d) / qc)%Q -> ((q + d) / qc < big)%Q ->
  approx (B64.div x (S754_finite false m e)) (q / qc) (d / qc + eps).
Proof.
  intros [[Vx Fx] [L U]] Ec Pc Hlo Hhi.
  pose proof (div_Rounds x false m e Vx Fx) as HR.
  assert (Pi : (0 <= / qc)%Q) by (apply Qlt_le_weak, Qinv_lt_0_compat, Pc).
  assert (L1 : ((q - d) / qc <= B64.to_Q x / B64.to_Q (S754_finite false m e))%Q).
  { rewrite Ec. unfold Qdiv. apply Qmult_le_compat_r; lra. }
  assert (U1 : (B64.to_Q x / B64.to_Q (S754_finite false m e) <= (q + d) / qc)%Q).
  { rewrite Ec. unfold Qdiv. apply Qmult_le_compat_r; lra. }
  destruct (Rounds_approx _ _ HR) as [F [L' U']]; [lra|lra|].
  split; [exact F|].
  assert (E1 : ((q - d) / qc == q / qc - d / qc)%Q) by (field; lra).
  assert (E2 : ((q + d) / qc == q / qc + d / qc)%Q) by (field; lra).
  lra.
Qed.

(** [Math.round] of a finite value is a finite value. *)
Lemma round_fin (x : B64.number) : fin x -> fin (B64.round x).
Proof.
  intros [V F]. destruct x as [s|s| |s m e]; try discriminate F.
  - split; reflexivity.
  - unfold B64.round. destruct (Z.leb_spec 0 e) as [He|He]; [split; assumption|].
    pose proof (valid_mantissa_bound s m e V) as Hm.
    pose proof (round_half_up_bound s m e He Hm) as Hn.
    destruct (B64.round_half_up s m e) as [|p|p] eqn:En.
    + split; reflexivity.
    + split.
      * apply (Rounds_valid _ _ (binary_normalize_Rounds (Zpos p) 0 false)).
      * cbn [binary_normalize].
        destruct (binary_round_integer false p) as (m' & e' & -> & _); [|reflexivity].
        apply digits2_pos_le. change (Z.abs (Zpos p)) with (Zpos p) in Hn.
        unfold B64.prec. change (2 ^ 53) with (2 * 2 ^ 52). lia.
    + split.
      * apply (Rounds_valid _ _ (binary_normalize_Rounds (Zneg p) 0 false)).
      * cbn [binary_normalize].
        destruct (binary_round_integer true p) as (m' & e' & -> & _); [|reflexivity].
        apply digits2_pos_le. change (Z.abs (Zneg p)) with (Zpos p) in Hn.
        unfold B64.prec. change (2 ^ 53) with (2 * 2 ^ 52). lia.
Qed.

Lemma approx_round (x : B64.number) (q d : Q) :
  approx x q d -> approx (B64.round x) q (d + (1 # 2)).
Proof.
  intros [[V F] [L U]]. split; [apply round_fin; split; assumption|].
  rewrite (round_floor_half x V F). unfold Exact.round.
  pose proof (Qfloor_le (B64.to_Q x + (1 # 2))) as Hlo.
  pose proof (Qlt_floor (B64.to_Q x + (1 # 2))) as Hhi.
  rewrite inject_Z_plus in Hhi. change (inject_Z 1) with 1%Q in Hhi.
  lra.
Qed.

Lemma approx_div_inv (x : B64.number) (m : positive) (e : Z) (q d qc qi : Q) :
  approx x q d -> B64.to_Q (S754_finite false m e) == qc -> (0 < qc)%Q ->
  qi == / qc ->
  (- big < (q - d) * qi)%Q -> ((q + d) * qi < big)%Q ->
  approx (B64.div x (S754_finite false m e)) (q * qi) (d * qi + eps).
Proof.
  intros Hx Ec Pc Ei Hlo Hhi.
  assert (Hlo' : (- big < (q - d) / qc)%Q) by (unfold Qdiv; rewrite <- Ei; exact Hlo).
  assert (Hhi' : ((q + d) / qc < big)%Q) by (unfold Qdiv; rewrite <- Ei; exact Hhi).
  destruct (approx_div x m e q d qc Hx Ec Pc Hlo' Hhi') as [F [L U]].
  split; [exact F|]. unfold Qdiv in L, U. rewrite <- Ei in L, U. lra.
Qed.

Ltac approx_side := unfold big, eps; lra.

(** [approx_of t] adds to the context a bound [approx t q d] for the
    expression [t], from the bounds of its parts. *)
Ltac approx_of t :=
  lazymatch t with
  | B64.sub ?x ?c =>
      approx_of x;
      lazymatch goal with
      | H : approx x ?q ?d |- _ =>
          let qc := eval vm_compute in (B64.to_Q c) in
          assert (approx t (q - qc) (d + eps))
            by (apply (approx_sub x c q d qc H);
                [split; reflexivity | reflexivity | approx_side | approx_side])
      end
  | B64.add ?x ?c =>
      approx_of x;
      lazymatch goal with
      | H : approx x ?q ?d |- _ =>
          let qc := eval vm_compute in (B64.to_Q c) in
          assert (approx t (q + qc) (d + eps))
            by (apply (approx_add x c q d qc H);
                [split; reflexivity | reflexivity | approx_side | approx_side])
      end
  | B64.mul ?x ?c =>
      approx_of x;
      lazymatch goal with
      | H : approx x ?q ?d |- _ =>
          let qc := eval vm_compute in (B64.to_Q c) in
          assert (approx t (q * qc) (d * qc + eps))
            by (apply (approx_mul x c q d qc H);
                [split; reflexivity | reflexivity | reflexivity
                 | approx_side | approx_side])
      end
  | B64.div ?x (S754_finite false ?m ?e) =>
      approx_of x;
      lazymatch goal with
      | H : approx x ?q ?d |- _ =>
          let qc := eval vm_compute in (B64.to_Q (S754_finite false m e)) in
          let qi := eval vm_compute in (Qinv qc) in
          assert (approx t (q * qi) (d * qi + eps))
            by (apply (approx_div_inv x m e q d qc qi H);
                [reflexivity | reflexivity | reflexivity
                 | approx_side | approx_side])
      end
  | B64.round ?x =>
      approx_of x;
      lazymatch goal with
      | H : approx x ?q ?d |- _ =>
          assert (approx t q (d + (1 # 2))) by (apply (approx_round x q d H))
      end
  | _ =>
      lazymatch goal with
      | H : approx t _ _ |- _ => idtac
      | H : fin t |- _ => pose proof (approx_exact t H)
      end
  end.



(** ** Validation *)

Section Validation.

Local Open Scope string_scope.

Lemma parseFloat_empty : JS.parseFloat "" = B64.NaN.
Proof. reflexivity. Qed.

(** The numeric check of step 1, as a boolean on the raw text. *)
Lemma convert_invalid_iff (raw inputUnit outputUnit : string) :
  convert raw inputUnit outputUnit = Failed InvalidNumber
  <-> (raw =? "") || B64.isNaN (JS.parseFloat raw) = true.
Proof.
  unfold convert.
  destruct ((raw =? "") || B64.isNaN (JS.parseFloat raw)).
  - split; reflexivity.
  - destruct (inputUnit =? outputUnit); split; discriminate.
Qed.

Lemma empty_or_NaN (raw : string) :
  (raw =? "") || B64.isNaN (JS.parseFloat raw) = true
  <-> B64.isNaN (JS.parseFloat raw) = true.
Proof.
  split.
  - destruct (String.eqb_spec raw "") as [->|_]; [reflexivity|].
    simpl. trivial.
  - intros ->. apply orb_true_r.
Qed.

(** C2: the four numeric test vectors: ["0"] from Celsius to Fahrenheit is
    32.00, ["32"] from Fahrenheit to Celsius is 0.00, ["0"] from Celsius
    to Kelvin is 273.15 and ["100"] from Celsius to Fahrenheit is 212.00,
    each the binary64 value of that decimal. *)
Theorem convert_test_vectors :
  convert "0" "celsius" "fahrenheit" = Converted (B64.lit 3200 (-2))
  /\ convert "32" "fahrenheit" "celsius" = Converted (B64.lit 0 (-2))
  /\ convert "0" "celsius" "kelvin" = Converted (B64.lit 27315 (-2))
  /\ convert "100" "celsius" "fahrenheit" = Converted (B64.lit 21200 (-2)).
Proof. repeat split; vm_compute; reflexivity. Qed.

(** C4: for a raw input that parses as a finite number, equal source and
    target units fail with SameUnit and no converted value is produced. *)
Theorem same_unit_rejected (raw unit : string) :
  B64.is_finite (JS.parseFloat raw) = true ->
  In unit units ->
  convert raw unit unit = Failed SameUnit
  /\ forall value, convert raw unit unit <> Converted value.
Proof.
  intros Hfin _.
  assert (E : convert raw unit unit = Failed SameUnit).
  { unfold convert.
    destruct (String.eqb_spec raw "") as [->|_].
    { rewrite parseFloat_empty in Hfin. discriminate Hfin. }
    destruct (JS.parseFloat raw); try discriminate Hfin;
      simpl; rewrite String.eqb_refl; reflexivity. }
  split; [exact E|]. intros value. rewrite E. discriminate.
Qed.

(** C5, as the script has it: the numeric check runs before the unit
    check, so a raw input that is empty or for which [parseFloat] is NaN
    fails with InvalidNumber whatever the units, equal ones included. *)
Theorem invalid_number_before_same_unit (raw inputUnit outputUnit : string) :
  raw = "" \/ B64.isNaN (JS.parseFloat raw) = true ->
  convert raw inputUnit outputUnit = Failed InvalidNumber
  /\ convert raw inputUnit inputUnit = Failed InvalidNumber.
Proof.
  intros Hraw.
  assert (Hb : (raw =? "") || B64.isNaN (JS.parseFloat raw) = true).
  { destruct Hraw as [->|Hn]; [reflexivity|].
    rewrite Hn. apply orb_true_r. }
  split; apply convert_invalid_iff; exact Hb.
Qed.

End Validation.

Lemma same_unit_rejected_witness :
  B64.is_finite (JS.parseFloat "10") = true
  /\ In "celsius"%string units
  /\ convert "10" "celsius" "celsius" = Failed SameUnit.
Proof.
  assert (Hf : B64.is_finite (JS.parseFloat "10") = true) by reflexivity.
  assert (Hu : In "celsius"%string units) by (simpl; auto).
  split; [exact Hf|]. split; [exact Hu|].
  exact (proj1 (same_unit_rejected "10" "celsius" Hf Hu)).
Defined.

Lemma invalid_number_before_same_unit_witness :
  B64.isNaN (JS.parseFloat "abc") = true
  /\ convert "abc" "celsius" "celsius" = Failed InvalidNumber.
Proof.
  assert (Hn : B64.isNaN (JS.parseFloat "abc") = true) by reflexivity.
  split; [exact Hn|].
  exact (proj2 (invalid_number_before_same_unit "abc" "celsius" "kelvin"
                  (or_intror Hn))).
Defined.

(** C5 as stated fails: ["Infinity"] does not parse as a finite number, yet
    with equal units the script reports SameUnit for it, not
    InvalidNumber. *)
Lemma infinity_same_unit_counterexample :
  B64.is_finite (JS.parseFloat "Infinity") = false
  /\ convert "Infinity" "celsius" "celsius" = Failed SameUnit
  /\ convert "Infinity" "celsius" "celsius" <> Failed InvalidNumber.
Proof. repeat split. discriminate. Qed.

(** ** What [parseFloat] returns *)

Lemma scan_digits_nonneg (s : string) (acc n : Z) :
  0 <= acc -> 0 <= fst (fst (JS.scan_digits s acc n)).
Proof.
  revert acc n. induction s as [|c s IH]; intros acc n Hacc;
    cbn [JS.scan_digits].
  - exact Hacc.
  - destruct (JS.is_digit c) eqn:Hd; [|exact Hacc].
    apply IH. unfold JS.is_digit in Hd.
    apply andb_true_iff in Hd. destruct Hd as [Hd _].
    apply Z.leb_le in Hd. lia.
Qed.

Lemma scan_unsigned_nonneg (s : string) (M E : Z) :
  JS.scan_unsigned s = Some (JS.MV_decimal M E) -> 0 <= M.
Proof.
  unfold JS.scan_unsigned.
  destruct (prefix "Infinity" s); [discriminate|].
  pose proof (scan_digits_nonneg s 0 0 ltac:(lia)) as Hi.
  destruct (JS.scan_digits s 0 0) as [[i ni] r1]. simpl in Hi.
  assert (Hplain :
    (if ni =? 0 then None else Some (JS.MV_decimal i (JS.scan_exponent r1)))
    = Some (JS.MV_decimal M E) -> 0 <= M).
  { destruct (ni =? 0); [discriminate|]. intros [= <- _]. exact Hi. }
  destruct r1 as [|c r2]; [exact Hplain|].
  destruct c as [[] [] [] [] [] [] [] []]; try exact Hplain.
  pose proof (scan_digits_nonneg r2 i 0 Hi) as Hm.
  destruct (JS.scan_digits r2 i 0) as [[m nf] r3]. simpl in Hm.
  destruct ((ni =? 0) && (nf =? 0)); [discriminate|].
  intros [= <- _]. exact Hm.
Qed.

Lemma scan_literal_nonneg (s : string) (neg : bool) (M E : Z) :
  JS.scan_literal s = Some (neg, JS.MV_decimal M E) -> 0 <= M.
Proof.
  intros Hl.
  assert (Hopt : forall b r,
    option_map (pair b) (JS.scan_unsigned r) = Some (neg, JS.MV_decimal M E) ->
    0 <= M).
  { intros b r Hr. destruct (JS.scan_unsigned r) as [mv|] eqn:Hu; [|discriminate].
    injection Hr as _ ->. exact (scan_unsigned_nonneg r M E Hu). }
  unfold JS.scan_literal in Hl.
  destruct s as [|c r]; [exact (Hopt _ _ Hl)|].
  destruct c as [[] [] [] [] [] [] [] []]; exact (Hopt _ _ Hl).
Qed.

(** A literal reads as a binary64 value, and never as NaN. *)
Lemma value_of_good (s : string) (l : bool * JS.MV) :
  JS.scan_literal s = Some l -> good (JS.value_of l).
Proof.
  intros Hl. destruct l as [neg [|M E]]; cbn [JS.value_of].
  - split; reflexivity.
  - apply (Rounds_valid _ _
             (of_decimal_Rounds neg M E (scan_literal_nonneg s neg M E Hl))).
Qed.

Lemma parseFloat_valid (raw : string) :
  valid_binary B64.prec B64.emax (JS.parseFloat raw) = true.
Proof.
  unfold JS.parseFloat.
  destruct (JS.scan_literal (JS.trimStart raw)) as [l|] eqn:Hl; [|reflexivity].
  apply (value_of_good _ l Hl).
Qed.

(** [parseFloat] is NaN exactly when its argument, after leading white
    space, does not start with a decimal literal. *)
Lemma parseFloat_NaN_iff (raw : string) :
  B64.isNaN (JS.parseFloat raw) = true
  <-> JS.scan_literal (JS.trimStart raw) = None.
Proof.
  unfold JS.parseFloat.
  destruct (JS.scan_literal (JS.trimStart raw)) as [l|] eqn:Hl.
  - destruct (value_of_good _ l Hl) as [_ Hn]. rewrite Hn.
    split; discriminate.
  - split; reflexivity.
Qed.

(** C3, as the script has it: the conversion fails with InvalidNumber if
    and only if the raw input is empty or [parseFloat] of it is NaN, that
    is, if and only if the input does not start, after leading white space,
    with a decimal literal.  Whether the parsed value is finite plays no
    part. *)
Theorem invalid_number_iff (raw inputUnit outputUnit : string) :
  (convert raw inputUnit outputUnit = Failed InvalidNumber
   <-> raw = ""%string \/ B64.isNaN (JS.parseFloat raw) = true)
  /\ (convert raw inputUnit outputUnit = Failed InvalidNumber
      <-> JS.scan_literal (JS.trimStart raw) = None).
Proof.
  assert (H1 : convert raw inputUnit outputUnit = Failed InvalidNumber
               <-> B64.isNaN (JS.parseFloat raw) = true).
  { rewrite convert_invalid_iff. apply empty_or_NaN. }
  split.
  - rewrite H1. split; [auto|]. intros [->|Hn]; [reflexivity|exact Hn].
  - rewrite H1. apply parseFloat_NaN_iff.
Qed.

(** C3 as stated fails: ["Infinity"] is not empty and does not parse as a
    finite number, yet it passes the numeric check; so does ["1e999"], and
    so does ["12abc"], whose numeric prefix is read. *)
Lemma infinity_accepted_counterexample :
  ~ (convert "Infinity" "celsius" "fahrenheit" = Failed InvalidNumber
     <-> "Infinity"%string = ""%string
         \/ B64.is_finite (JS.parseFloat "Infinity") = false).
Proof.
  intros [_ Hback].
  assert (E : convert "Infinity" "celsius" "fahrenheit"
              = Converted B64.Infinity) by (vm_compute; reflexivity).
  rewrite E in Hback.
  assert (F : Converted B64.Infinity = Failed InvalidNumber).
  { apply Hback. right. reflexivity. }
  discriminate F.
Qed.

Example convert_1e999 :
  convert "1e999" "celsius" "kelvin" = Converted B64.Infinity.
Proof. vm_compute. reflexivity. Qed.

Example convert_12abc :
  convert "12abc" "celsius" "kelvin" = Converted (B64.lit 28515 (-2)).
Proof. vm_compute. reflexivity. Qed.

Example convert_abc :
  convert "abc" "celsius" "fahrenheit" = Failed InvalidNumber.
Proof. reflexivity. Qed.

Example convert_empty :
  convert "" "celsius" "fahrenheit" = Failed InvalidNumber.
Proof. reflexivity. Qed.

(** ** The rounding step *)

Lemma convert_converted (raw inputUnit outputUnit : string) (r : B64.number) :
  convert raw inputUnit outputUnit = Converted r ->
  B64.isNaN (JS.parseFloat raw) = false
  /\ r = round2 (convertTo (JS.parseFloat raw) inputUnit outputUnit).
Proof.
  unfold convert. intros Hc.
  destruct (raw =? "")%string; [discriminate Hc|].
  destruct (B64.isNaN (JS.parseFloat raw)); [discriminate Hc|].
  destruct (inputUnit =? outputUnit)%string; [discriminate Hc|].
  injection Hc as <-. split; reflexivity.
Qed.

(** What the script multiplies by 100 is a binary64 value other than NaN. *)
Lemma scaled_result_good (raw inputUnit outputUnit : string) :
  B64.isNaN (JS.parseFloat raw) = false ->
  good (B64.mul (convertTo (JS.parseFloat raw) inputUnit outputUnit)
          (B64.lit 100 0)).
Proof.
  intros Hn.
  assert (Hp : good (JS.parseFloat raw)) by (split; [apply parseFloat_valid|exact Hn]).
  destruct (convertTo_monotone inputUnit outputUnit) as [Hg _].
  destruct (monotone_mul_const 7036874417766400 (-46) eq_refl) as [Hm _].
  apply (Hm _ (Hg _ Hp)).
Qed.

(** C6, as the script has it: the final value of a validated input is
    [Math.round (c * 100) / 100] for the converted value [c], and
    [Math.round] takes a finite [y] to the integer [n] with
    [n - 1/2 <= y < n + 1/2]: a tie goes towards +Infinity, away from zero
    only when it is not negative. *)
Theorem rounding_is_half_up (raw inputUnit outputUnit : string) (r : B64.number) :
  convert raw inputUnit outputUnit = Converted r ->
  let y := B64.mul (convertTo (JS.parseFloat raw) inputUnit outputUnit)
             (B64.lit 100 0) in
  r = B64.div (B64.round y) (B64.lit 100 0)
  /\ (B64.is_finite y = true ->
      exists n : Z,
        (B64.to_Q (B64.round y) == inject_Z n
         /\ inject_Z n - (1 # 2) <= B64.to_Q y
         /\ B64.to_Q y < inject_Z n + (1 # 2))%Q).
Proof.
  intros Hc y. destruct (convert_converted _ _ _ _ Hc) as [Hn ->].
  split; [reflexivity|].
  intros Hf. destruct (scaled_result_good raw inputUnit outputUnit Hn) as [Hv _].
  fold y in Hv. exists (Qfloor (B64.to_Q y + (1 # 2))).
  split; [exact (round_floor_half y Hv Hf)|].
  pose proof (Qfloor_le (B64.to_Q y + (1 # 2))) as Hlo.
  pose proof (Qlt_floor (B64.to_Q y + (1 # 2))) as Hhi.
  rewrite inject_Z_plus in Hhi. change (inject_Z 1) with 1%Q in Hhi.
  split; lra.
Qed.

Lemma rounding_is_half_up_witness :
  convert "26.375" "fahrenheit" "celsius" = Converted (B64.lit (-312) (-2))
  /\ exists n : Z,
       (B64.to_Q (B64.round (B64.lit (-3125) (-1))) == inject_Z n
        /\ inject_Z n - (1 # 2) <= B64.to_Q (B64.lit (-3125) (-1))
        /\ B64.to_Q (B64.lit (-3125) (-1)) < inject_Z n + (1 # 2))%Q.
Proof.
  assert (Hc : convert "26.375" "fahrenheit" "celsius"
               = Converted (B64.lit (-312) (-2))) by (vm_compute; reflexivity).
  split; [exact Hc|].
  destruct (rounding_is_half_up "26.375" "fahrenheit" "celsius" _ Hc)
    as [_ Hy].
  assert (Ey : B64.mul (convertTo (JS.parseFloat "26.375") "fahrenheit" "celsius")
                 (B64.lit 100 0) = B64.lit (-3125) (-1))
    by (vm_compute; reflexivity).
  rewrite Ey in Hy. apply Hy. vm_compute. reflexivity.
Defined.

(** C6 as stated fails: ["26.375"] from Fahrenheit to Celsius converts to
    exactly -3.125, a multiple of 0.005, and the script returns -3.12, which
    is nearer to zero, where rounding a tie away from zero gives -3.13. *)
Lemma negative_tie_counterexample :
  let c := convertTo (JS.parseFloat "26.375") "fahrenheit" "celsius" in
  (B64.to_Q c == - (625 # 1) * (5 # 1000))%Q
  /\ (spec_round_half_away_from_zero (B64.to_Q c) == - (313 # 100))%Q
  /\ convert "26.375" "fahrenheit" "celsius" = Converted (B64.lit (-312) (-2))
  /\ convert "26.375" "fahrenheit" "celsius" <> Converted (B64.lit (-313) (-2))
  /\ ~ (Qabs (B64.to_Q c) <= Qabs (B64.to_Q (B64.lit (-312) (-2))))%Q.
Proof.
  cbv zeta. repeat split.
  - vm_compute. discriminate.
  - intros H. vm_compute in H. apply H. reflexivity.
Qed.

(** A negative tie of half a cent is returned as negative zero. *)
Example minus_half_cent :
  round2 (B64.lit (-5) (-3)) = S754_zero true.
Proof. vm_compute. reflexivity. Qed.

(** ** Exact arithmetic: affine conversions and the round trip *)

Section ExactFacts.

Local Open Scope Q_scope.


(** In exact arithmetic the conversion between two of the three units is
    affine, with slope 1, 5/9 or 9/5. *)
(** Unfolds a conversion at two given units in exact arithmetic, down to
    the rational operations and constants. *)
Ltac exact_norm :=
  unfold convertTo, convertToCelsius, convertFromCelsius;
  cbn [String.eqb Ascii.eqb Bool.eqb];
  cbn [num_add num_sub num_mul num_div exact];
  change (@n5 Q exact) with 5%Q; change (@n9 Q exact) with 9%Q;
  change (@n32 Q exact) with 32%Q;
  change (@n273_15 Q exact) with (27315 # 100)%Q.


Lemma convertTo_exact_affine (A B : string) :
  In A units -> In B units ->
  exists a b : Q,
    (a == 1 \/ a == 5 # 9 \/ a == 9 # 5)
    /\ forall x : Q, convertTo x A B == a * x + b.
Proof.
  intros HA HB.
  apply In_units in HA. apply In_units in HB.
  destruct HA as [-> | [-> | ->]]; destruct HB as [-> | [-> | ->]].
  - exists 1, 0. split; [left; reflexivity|]. intros x. exact_norm. ring.
  - exists (9 # 5), 32. split; [right; right; reflexivity|]. intros x. exact_norm. field.
  - exists 1, (27315 # 100). split; [left; reflexivity|]. intros x. exact_norm. ring.
  - exists (5 # 9), (- (160 # 9)). split; [right; left; reflexivity|].
    intros x. exact_norm. field.
  - exists 1, 0. split; [left; reflexivity|]. intros x. exact_norm. field.
  - exists (5 # 9), ((27315 # 100) - (160 # 9)).
    split; [right; left; reflexivity|]. intros x. exact_norm. field.
  - exists 1, (- (27315 # 100)). split; [left; reflexivity|]. intros x. exact_norm. ring.
  - exists (9 # 5), (32 - (9 # 5) * (27315 # 100)).
    split; [right; right; reflexivity|]. intros x. exact_norm. field.
  - exists 1, 0. split; [left; reflexivity|]. intros x. exact_norm. ring.
Qed.

(** In exact arithmetic the unrounded conversion is strictly increasing. *)
Lemma convertTo_exact_increasing (A B : string) :
  In A units -> In B units ->
  exists a b : Q,
    (a == 1 \/ a == 5 # 9 \/ a == 9 # 5)
    /\ (forall x : Q, convertTo x A B == a * x + b)
    /\ (forall x y : Q, x < y -> convertTo x A B < convertTo y A B).
Proof.
  intros HA HB.
  destruct (convertTo_exact_affine A B HA HB) as (a & b & Ha & Haff).
  exists a, b. split; [exact Ha|]. split; [exact Haff|].
  intros x y Hxy. rewrite (Haff x), (Haff y).
  destruct Ha as [Ha | [Ha | Ha]]; rewrite Ha; lra.
Qed.


End ExactFacts.

(** ** The round trip *)




(** The same input in exact arithmetic: the round trip is off by 0.011. *)
Example round_trip_exact_32_009 :
  (round_trip (32009 # 1000) "fahrenheit" "celsius" - (32009 # 1000)
   == 11 # 1000)%Q.
Proof. vm_compute. reflexivity. Qed.

(** A finite value whose conversion overflows does not come back at all. *)
Example round_trip_overflow :
  B64.is_finite (B64.lit 1 308) = true
  /\ round_trip (B64.lit 1 308) "celsius" "fahrenheit" = B64.Infinity.
Proof. split; vm_compute; reflexivity. Qed.

(** ** The order of values *)

Lemma ltb_leb (x y : B64.number) : B64.ltb x y = true -> B64.leb x y = true.
Proof.
  unfold B64.ltb, B64.leb, SFltb, SFleb.
  destruct (SFcompare x y) as [[| |]|]; try discriminate; reflexivity.
Qed.

(** C10, as the script computes it: for every ordered pair of the three
    units the unrounded conversion is, in exact arithmetic, an affine
    function of the value with slope 1, 5/9 or 9/5, hence strictly
    increasing; on binary64 values other than NaN it keeps the order
    without the strictness: [x < y] gives
    [convertTo x A B <= convertTo y A B]. *)
Theorem convertTo_order_preserving (A B : string) :
  In A units -> In B units ->
  (exists a b : Q,
     (a == 1 \/ a == 5 # 9 \/ a == 9 # 5)
     /\ (forall x : Q, convertTo x A B == a * x + b)
     /\ (forall x y : Q, x < y -> convertTo x A B < convertTo y A B))%Q
  /\ (forall x y : B64.number,
        good x -> good y -> B64.ltb x y = true ->
        B64.leb (convertTo x A B) (convertTo y A B) = true).
Proof.
  intros HA HB. split.
  - apply convertTo_exact_increasing; assumption.
  - intros x y Hx Hy Hlt.
    destruct (convertTo_monotone A B) as [_ Hm].
    apply Hm; [exact Hx|exact Hy|apply ltb_leb; exact Hlt].
Qed.

Lemma convertTo_order_preserving_witness :
  In "kelvin"%string units /\ In "celsius"%string units
  /\ good (B64.lit 0 0) /\ good (B64.lit 5 (-324))
  /\ B64.ltb (B64.lit 0 0) (B64.lit 5 (-324)) = true
  /\ B64.leb (convertTo (B64.lit 0 0) "kelvin" "celsius")
       (convertTo (B64.lit 5 (-324)) "kelvin" "celsius") = true
  /\ (forall x y : Q,
        x < y -> convertTo x "kelvin" "celsius" < convertTo y "kelvin" "celsius")%Q.
Proof.
  assert (HA : In "kelvin"%string units) by (simpl; auto).
  assert (HB : In "celsius"%string units) by (simpl; auto).
  assert (Gx : good (B64.lit 0 0)) by (split; reflexivity).
  assert (Gy : good (B64.lit 5 (-324))) by (split; reflexivity).
  assert (Hlt : B64.ltb (B64.lit 0 0) (B64.lit 5 (-324)) = true) by reflexivity.
  destruct (convertTo_order_preserving "kelvin" "celsius" HA HB)
    as [(a & b & _ & _ & Hq) Hb].
  split; [exact HA|]. split; [exact HB|]. split; [exact Gx|].
  split; [exact Gy|]. split; [exact Hlt|].
  split; [exact (Hb _ _ Gx Gy Hlt)|exact Hq].
Defined.

(** C10 as stated fails on the numbers the script computes with: 0 is
    below 5e-324, the least positive binary64 value, and from Kelvin to
    Celsius both become -273.15. *)
Lemma kelvin_to_celsius_not_strict_counterexample :
  let x := B64.lit 0 0 in
  let y := B64.lit 5 (-324) in
  B64.ltb x y = true
  /\ convertTo x "kelvin" "celsius" = B64.lit (-27315) (-2)
  /\ convertTo y "kelvin" "celsius" = B64.lit (-27315) (-2)
  /\ B64.ltb (convertTo x "kelvin" "celsius") (convertTo y "kelvin" "celsius")
     = false.
Proof. cbv zeta. repeat split; vm_compute; reflexivity. Qed.

(** ** The script on the page *)

Section ScriptFacts.

Variable NumberToString : B64.number -> string.


(** [convertTemperature], when both radio groups have a checked button,
    clears the messages and renders the outcome of [convert]. *)
Lemma convertTemperature_convert (page : Page) (inputUnit outputUnit : string) :
  inputUnitChecked page = Some inputUnit ->
  outputUnitChecked page = Some outputUnit ->
  convertTemperature NumberToString page =
  (Normal,
   render NumberToString (temperatureInput page) inputUnit outputUnit
     (convert (temperatureInput page) inputUnit outputUnit)
     (clearMessages page)).
Proof.
  intros Hi Ho. unfold convertTemperature, convert.
  cbn [clearMessages temperatureInput inputUnitChecked outputUnitChecked].
  rewrite Hi, Ho.
  destruct ((temperatureInput page =? "")%string || B64.isNaN _);
    [reflexivity|].
  destruct (inputUnit =? outputUnit)%string; reflexivity.
Qed.





End ScriptFacts.


(** * Further properties *)

(** ** Order, NaN and the infinities *)

(** A value other than zero has one rounding. *)
Lemma Rounds_unique (v : Q) (r1 r2 : B64.number) :
  ~ v == 0 -> Rounds v r1 -> Rounds v r2 -> r1 = r2.
Proof.
  intros Hv [[Z1 _]|(s1 & k1 & P1 & K1 & ->)]; [contradiction|].
  intros [[Z2 _]|(s2 & k2 & P2 & K2 & ->)]; [contradiction|].
  assert (s1 = s2) by (destruct s1, s2; cbn [sgn] in *; try reflexivity; exfalso; lra).
  subst s2. rewrite (mag_of_unique _ _ _ K1 K2). reflexivity.
Qed.

Lemma fin_good (x : B64.number) : fin x -> good x.
Proof. intros [V F]. split; [exact V|]. destruct x; try discriminate F; reflexivity. Qed.

(** [Math.round] rounds, exactly, what it returns in exact arithmetic. *)
Lemma round_Rounds (x : B64.number) :
  valid_binary B64.prec B64.emax x = true -> B64.is_finite x = true ->
  Rounds (Exact.round (B64.to_Q x)) (B64.round x).
Proof.
  intros V F. destruct (round_fin x (conj V F)) as [V' F'].
  apply (Rounds_compat (B64.to_Q (B64.round x))).
  - apply round_floor_half; assumption.
  - apply Rounds_self; assumption.
Qed.

Lemma monotone_round : monotone B64.round.
Proof.
  assert (Hg : forall a b : Q, (a <= b)%Q -> (Exact.round a <= Exact.round b)%Q).
  { intros a b Hab. unfold Exact.round. rewrite <- Zle_Qle.
    apply Qfloor_resp_le. lra. }
  assert (Hi : forall s, B64.round (S754_infinity s) = S754_infinity s)
    by reflexivity.
  split.
  - apply (monotone_good _ _ round_Rounds Hi).
  - apply (monotone_leb _ _ round_Rounds Hg Hi).
Qed.

Lemma monotone_round2 : monotone (fun x : B64.number => round2 x).
Proof.
  unfold round2. cbn [num_mul num_div Math_round binary64]. rewrite n100_eq.
  apply (monotone_compose (fun x => B64.round (B64.mul x _)) (fun x => B64.div x _));
    [|apply monotone_div_const].
  apply (monotone_compose (fun x => B64.mul x _) B64.round);
    [apply monotone_mul_const; reflexivity|apply monotone_round].
Qed.

Lemma monotone_convertRounded (fromUnit toUnit : string) :
  monotone (fun x : B64.number => convertRounded x fromUnit toUnit).
Proof.
  unfold convertRounded.
  apply (monotone_compose (fun x => convertTo x fromUnit toUnit)
           (fun x => round2 x)).
  - apply convertTo_monotone.
  - apply monotone_round2.
Qed.

(** X1: the conversion followed by the rounding step keeps the order of
    binary64 values other than NaN: the smaller of two values never gets
    the larger result, for any two units. *)
Theorem convertRounded_order_preserving (fromUnit toUnit : string)
    (x y : B64.number) :
  good x -> good y -> B64.leb x y = true ->
  B64.leb (convertRounded x fromUnit toUnit) (convertRounded y fromUnit toUnit)
  = true.
Proof.
  intros Hx Hy Hle. destruct (monotone_convertRounded fromUnit toUnit) as [_ Hm].
  apply Hm; assumption.
Qed.

Lemma convertRounded_order_preserving_witness :
  B64.leb (convertRounded (B64.lit 20 0) "celsius" "fahrenheit")
          (convertRounded (B64.lit 21 0) "celsius" "fahrenheit") = true.
Proof.
  apply (convertRounded_order_preserving "celsius" "fahrenheit"
           (B64.lit 20 0) (B64.lit 21 0));
    [split; reflexivity | split; reflexivity | reflexivity].
Defined.

(** X2: a request that converts returns a binary64 value other than NaN,
    for any text of the field and any two units. *)
Theorem convert_never_NaN (raw inputUnit outputUnit : string) (r : B64.number) :
  convert raw inputUnit outputUnit = Converted r ->
  valid_binary B64.prec B64.emax r = true /\ B64.isNaN r = false.
Proof.
  intros Hc. destruct (convert_converted _ _ _ _ Hc) as [Hn ->].
  destruct (monotone_convertRounded inputUnit outputUnit) as [Hg _].
  apply (Hg (JS.parseFloat raw)). split; [apply parseFloat_valid|exact Hn].
Qed.

Lemma convert_never_NaN_witness :
  valid_binary B64.prec B64.emax (B64.lit 21200 (-2)) = true
  /\ B64.isNaN (B64.lit 21200 (-2)) = false.
Proof.
  apply (convert_never_NaN "100" "celsius" "fahrenheit").
  vm_compute. reflexivity.
Defined.

(** X3: an infinite value passes through the conversion and through the
    rounding step as it is, for any two units; so a text read as an
    infinity converts, between different units, to that infinity. *)
Theorem infinity_passes_through (s : bool) (raw inputUnit outputUnit : string) :
  convertTo (S754_infinity s) inputUnit outputUnit = S754_infinity s
  /\ convertRounded (S754_infinity s) inputUnit outputUnit = S754_infinity s
  /\ (JS.parseFloat raw = S754_infinity s -> inputUnit <> outputUnit ->
      convert raw inputUnit outputUnit = Converted (S754_infinity s)).
Proof.
  assert (H : convertTo (S754_infinity s) inputUnit outputUnit = S754_infinity s).
  { unfold convertTo, convertToCelsius, convertFromCelsius.
    destruct (inputUnit =? "celsius")%string;
      [|destruct (inputUnit =? "fahrenheit")%string;
        [|destruct (inputUnit =? "kelvin")%string]];
    (destruct (outputUnit =? "celsius")%string;
      [|destruct (outputUnit =? "fahrenheit")%string;
        [|destruct (outputUnit =? "kelvin")%string]]);
    destruct s; vm_compute; reflexivity. }
  assert (H2 : convertRounded (S754_infinity s) inputUnit outputUnit
               = S754_infinity s).
  { unfold convertRounded. rewrite H. destruct s; vm_compute; reflexivity. }
  split; [exact H|]. split; [exact H2|].
  intros Hp Hne. unfold convert. rewrite Hp.
  destruct (String.eqb_spec raw "") as [->|_]; [discriminate Hp|].
  cbn [B64.isNaN orb].
  destruct (String.eqb_spec inputUnit outputUnit) as [E|_]; [contradiction|].
  f_equal. exact H2.
Qed.

Lemma infinity_passes_through_witness :
  JS.parseFloat "-Infinity" = S754_infinity true
  /\ "kelvin"%string <> "fahrenheit"%string
  /\ convert "-Infinity" "kelvin" "fahrenheit" = Converted (S754_infinity true).
Proof.
  assert (Hp : JS.parseFloat "-Infinity" = S754_infinity true) by reflexivity.
  assert (Hne : "kelvin"%string <> "fahrenheit"%string) by discriminate.
  split; [exact Hp|]. split; [exact Hne|].
  exact (proj2 (proj2 (infinity_passes_through true "-Infinity" "kelvin"
                         "fahrenheit")) Hp Hne).
Defined.

(** ** The rounding step on binary64 values *)

Lemma to_Q_zero_inv (z : B64.number) :
  fin z -> B64.to_Q z == 0 -> exists s, z = S754_zero s.
Proof.
  intros [V F] Hz. destruct z as [s|s| |s m e]; try discriminate F.
  - exists s. reflexivity.
  - exfalso. rewrite to_Q_sgn in Hz. pose proof (pos_value m e).
    destruct s; cbn [sgn] in Hz; lra.
Qed.

Lemma div_finite_inv (z : B64.number) (m : positive) (e : Z) :
  good z -> B64.is_finite (B64.div z (S754_finite false m e)) = true ->
  B64.is_finite z = true.
Proof.
  intros [_ N] H. destruct z as [s|s| |s mz ez]; try reflexivity.
  - destruct s; discriminate H.
  - discriminate N.
Qed.

Lemma round_finite_inv (y : B64.number) :
  B64.is_finite (B64.round y) = true -> B64.is_finite y = true.
Proof. destruct y; try reflexivity; intros H; discriminate H. Qed.

(** The value of the literal [n * 10 ^ (-2)]. *)
Lemma lit_hundredths_Rounds (n : Z) :
  Rounds (inject_Z n / 100) (B64.lit n (-2)).
Proof.
  unfold B64.lit.
  apply (Rounds_compat (sgn (n <? 0) (inject_Z (Z.abs n) * pow10 (-2))));
    [|apply of_decimal_Rounds; lia].
  pose proof (pow10_neg (-2) ltac:(lia)) as Hp.
  change (inject_Z (10 ^ (- -2))) with 100%Q in Hp.
  destruct (Z.ltb_spec n 0) as [Hn|Hn]; cbn [sgn]; rewrite Hp.
  - rewrite Z.abs_neq by lia. rewrite inject_Z_opp. field.
  - rewrite Z.abs_eq by lia. field.
Qed.

(** X4: every finite result of a request is the binary64 value of
    [n / 100] for an integer [n], or negative zero: a number of at most
    two fraction digits. *)
Theorem result_has_two_decimals (raw inputUnit outputUnit : string)
    (r : B64.number) :
  convert raw inputUnit outputUnit = Converted r ->
  B64.is_finite r = true ->
  exists n : Z, r = B64.lit n (-2) \/ r = S754_zero true.
Proof.
  intros Hc Hf. destruct (convert_converted _ _ _ _ Hc) as [Hn ->].
  pose proof (scaled_result_good raw inputUnit outputUnit Hn) as Gy.
  unfold round2 in *. cbn [num_mul num_div Math_round binary64] in *.
  change (@n100 B64.number binary64) with (B64.lit 100 0) in *.
  set (y := B64.mul (convertTo (JS.parseFloat raw) inputUnit outputUnit)
              (B64.lit 100 0)) in *.
  change (B64.lit 100 0) with (S754_finite false 7036874417766400 (-46)) in *.
  destruct monotone_round as [Gr _].
  pose proof (div_finite_inv _ _ _ (Gr y Gy) Hf) as Fz.
  pose proof (round_finite_inv y Fz) as Fy.
  destruct Gy as [Vy _].
  destruct (round_fin y (conj Vy Fy)) as [Vz _].
  set (n := Qfloor (B64.to_Q y + (1 # 2))).
  assert (Ez : B64.to_Q (B64.round y) == inject_Z n)
    by (apply round_floor_half; assumption).
  exists n.
  pose proof (div_Rounds (B64.round y) false 7036874417766400 (-46) Vz Fz) as HR.
  assert (HR' : Rounds (inject_Z n / 100) (B64.div (B64.round y)
                  (S754_finite false 7036874417766400 (-46)))).
  { eapply Rounds_compat; [|exact HR]. rewrite Ez.
    assert (E100 : B64.to_Q (S754_finite false 7036874417766400 (-46)) == 100)
      by reflexivity.
    rewrite E100. reflexivity. }
  destruct (Z.eq_dec n 0) as [E0|NE].
  - rewrite E0 in Ez. change (inject_Z 0) with 0%Q in Ez.
    destruct (to_Q_zero_inv _ (conj Vz Fz) Ez) as [s Hs]. rewrite Hs, E0.
    destruct s; [right|left]; reflexivity.
  - left. apply (Rounds_unique (inject_Z n / 100));
      [|exact HR'|apply lit_hundredths_Rounds].
    intros H0. apply NE.
    assert (H1 : inject_Z n == 0).
    { assert (E : inject_Z n == (inject_Z n / 100) * 100) by (field; discriminate).
      rewrite E, H0. ring. }
    unfold Qeq, inject_Z in H1. cbn [Qnum Qden] in H1. lia.
Qed.

Lemma result_has_two_decimals_witness :
  convert "26.375" "fahrenheit" "celsius" = Converted (B64.lit (-312) (-2))
  /\ B64.is_finite (B64.lit (-312) (-2)) = true
  /\ exists n : Z,
       B64.lit (-312) (-2) = B64.lit n (-2)
       \/ B64.lit (-312) (-2) = S754_zero true.
Proof.
  assert (Hc : convert "26.375" "fahrenheit" "celsius"
               = Converted (B64.lit (-312) (-2))) by (vm_compute; reflexivity).
  assert (Hf : B64.is_finite (B64.lit (-312) (-2)) = true) by reflexivity.
  split; [exact Hc|]. split; [exact Hf|].
  exact (result_has_two_decimals "26.375" "fahrenheit" "celsius" _ Hc Hf).
Defined.

(** Brings an expression of the script on binary64 values to the
    operations it is made of. *)
Ltac binary64_ops :=
  unfold round_trip, convertRounded, round2, convertTo, convertToCelsius,
    convertFromCelsius;
  cbn [String.eqb Ascii.eqb Bool.eqb];
  cbn [num_add num_sub num_mul num_div Math_round binary64];
  rewrite ?n5_eq, ?n9_eq, ?n32_eq, ?n100_eq, ?n273_15_eq.

(** X5: on a finite binary64 value of at most a thousand million in size
    the rounding step returns a finite value within 0.0051 of it. *)
Theorem round2_binary64_error (x : B64.number) :
  fin x -> (Qabs (B64.to_Q x) <= 1000000000)%Q ->
  fin (round2 x)
  /\ (Qabs (B64.to_Q (round2 x) - B64.to_Q x) <= 51 # 10000)%Q.
Proof.
  intros Fx Hx. apply Qabs_Qle_condition in Hx. destruct Hx as [Lx Ux].
  binary64_ops.
  lazymatch goal with
  | |- fin ?t /\ _ =>
      approx_of t;
      lazymatch goal with
      | H : approx t _ _ |- _ =>
          destruct H as [F [L U]]; split; [exact F|];
          apply Qabs_Qle_condition; unfold eps in L, U; split; lra
      end
  end.
Qed.

Lemma round2_binary64_error_witness :
  fin (B64.lit 26375 (-3))
  /\ (Qabs (B64.to_Q (B64.lit 26375 (-3))) <= 1000000000)%Q
  /\ (Qabs (B64.to_Q (round2 (B64.lit 26375 (-3))) - B64.to_Q (B64.lit 26375 (-3)))
      <= 51 # 10000)%Q.
Proof.
  assert (Fx : fin (B64.lit 26375 (-3))) by (split; reflexivity).
  assert (Hx : (Qabs (B64.to_Q (B64.lit 26375 (-3))) <= 1000000000)%Q)
    by (vm_compute; discriminate).
  split; [exact Fx|]. split; [exact Hx|].
  exact (proj2 (round2_binary64_error _ Fx Hx)).
Defined.

(** X6: the rounding step leaves a value it has produced as it is: on a
    finite binary64 value of at most a thousand million in size, rounding
    the rounded value returns the rounded value. *)
Theorem round2_idempotent (x : B64.number) :
  fin x -> (Qabs (B64.to_Q x) <= 1000000000)%Q ->
  round2 (round2 x) = round2 x.
Proof.
  intros Fx Hx. apply Qabs_Qle_condition in Hx. destruct Hx as [Lx Ux].
  binary64_ops.
  remember (B64.round (B64.mul x (S754_finite false 7036874417766400 (-46))))
    as N eqn:EN.
  assert (HN : approx N (B64.to_Q x * 100) (eps + (1 # 2))).
  { subst N.
    lazymatch goal with
    | |- approx ?t _ _ =>
        approx_of t;
        lazymatch goal with
        | H : approx t _ _ |- _ =>
            destruct H as [F [L U]]; split; [exact F|];
            unfold eps in *; split; lra
        end
    end. }
  destruct HN as [FN [LN UN]]. unfold eps in LN, UN.
  assert (IN : B64.to_Q N
               == inject_Z (Qfloor (B64.to_Q
                    (B64.mul x (S754_finite false 7036874417766400 (-46)))
                    + (1 # 2)))).
  { subst N. apply round_floor_half.
    - assert (Fm : fin (B64.mul x (S754_finite false 7036874417766400 (-46)))).
      { lazymatch goal with
        | |- fin ?t => approx_of t;
            lazymatch goal with H : approx t _ _ |- _ => exact (proj1 H) end
        end. }
      exact (proj1 Fm).
    - assert (Fm : fin (B64.mul x (S754_finite false 7036874417766400 (-46)))).
      { lazymatch goal with
        | |- fin ?t => approx_of t;
            lazymatch goal with H : approx t _ _ |- _ => exact (proj1 H) end
        end. }
      exact (proj2 Fm). }
  clear EN.
  set (n := Qfloor (B64.to_Q
              (B64.mul x (S754_finite false 7036874417766400 (-46)))
              + (1 # 2))) in IN.
  clearbody n.
  set (y := B64.mul (B64.div N (S754_finite false 7036874417766400 (-46)))
              (S754_finite false 7036874417766400 (-46))).
  assert (Hy : approx y (B64.to_Q N) (1 # 4)).
  { subst y.
    lazymatch goal with
    | |- approx ?t _ _ =>
        approx_of t;
        lazymatch goal with
        | H : approx t _ _ |- _ =>
            destruct H as [F [L U]]; split; [exact F|];
            unfold eps in *; split; lra
        end
    end. }
  destruct Hy as [[Vy Fy] [Ly Uy]].
  assert (Ey : Exact.round (B64.to_Q y) == B64.to_Q N).
  { unfold Exact.round. rewrite IN.
    rewrite (Qfloor_unique (B64.to_Q y + (1 # 2)) n); [reflexivity| |];
      rewrite IN in Ly, Uy; lra. }
  pose proof (round_Rounds y Vy Fy) as R1.
  pose proof (Rounds_self N (proj1 FN) (proj2 FN)) as R2.
  apply (Rounds_compat _ _ _ Ey) in R1.
  destruct (Qeq_dec (B64.to_Q N) 0) as [Z0|NZ].
  - destruct (to_Q_zero_inv N FN Z0) as [s ->].
    subst y. destruct s; reflexivity.
  - rewrite (Rounds_unique _ _ _ NZ R1 R2). reflexivity.
Qed.

Lemma round2_idempotent_witness :
  round2 (round2 (B64.lit 26375 (-3))) = round2 (B64.lit 26375 (-3)).
Proof.
  apply round2_idempotent; [split; reflexivity | vm_compute; discriminate].
Defined.

(** ** Binary64 against exact arithmetic *)

(** Unfolds a conversion at given units in exact arithmetic, down to the
    rational operations and constants, divisions written as products. *)
Ltac exact_ops :=
  unfold convertTo, convertToCelsius, convertFromCelsius;
  cbn [String.eqb Ascii.eqb Bool.eqb];
  cbn [num_add num_sub num_mul num_div exact];
  change (@n5 Q exact) with 5%Q; change (@n9 Q exact) with 9%Q;
  change (@n32 Q exact) with 32%Q;
  change (@n273_15 Q exact) with (27315 # 100)%Q;
  unfold Qdiv;
  change (/ 9)%Q with (1 # 9)%Q; change (/ 5)%Q with (1 # 5)%Q.

(** X7: on a finite value of at most a thousand million in size and any
    two of the three units, the conversion computed in binary64 is finite
    and within 0.0004 of the conversion in exact arithmetic. *)
Theorem convertTo_binary64_accuracy (v : B64.number) (A B : string) :
  fin v -> (Qabs (B64.to_Q v) <= 1000000000)%Q ->
  In A units -> In B units ->
  fin (convertTo v A B)
  /\ (Qabs (B64.to_Q (convertTo v A B) - convertTo (B64.to_Q v) A B)
      <= 4 # 10000)%Q.
Proof.
  intros Fv Hv HA HB. apply Qabs_Qle_condition in Hv. destruct Hv as [Lv Uv].
  apply In_units in HA. apply In_units in HB.
  destruct HA as [-> | [-> | ->]]; destruct HB as [-> | [-> | ->]];
    exact_ops; binary64_ops;
    lazymatch goal with
    | |- fin ?t /\ _ =>
        approx_of t;
        lazymatch goal with
        | H : approx t _ _ |- _ =>
            destruct H as [F [L U]]; split; [exact F|];
            apply Qabs_Qle_condition; unfold eps in L, U; split; lra
        end
    end.
Qed.

Lemma convertTo_binary64_accuracy_witness :
  fin (B64.lit 100 0)
  /\ (Qabs (B64.to_Q (B64.lit 100 0)) <= 1000000000)%Q
  /\ (Qabs (B64.to_Q (convertTo (B64.lit 100 0) "celsius" "fahrenheit")
            - convertTo (B64.to_Q (B64.lit 100 0)) "celsius" "fahrenheit")
      <= 4 # 10000)%Q.
Proof.
  assert (Fx : fin (B64.lit 100 0)) by (split; reflexivity).
  assert (Hx : (Qabs (B64.to_Q (B64.lit 100 0)) <= 1000000000)%Q)
    by (vm_compute; discriminate).
  split; [exact Fx|]. split; [exact Hx|].
  exact (proj2 (convertTo_binary64_accuracy _ "celsius" "fahrenheit" Fx Hx
                  ltac:(simpl; tauto) ltac:(simpl; tauto))).
Defined.

(** X8: when the number read from the field is finite and of at most a
    thousand million in size and the two units are different units of the
    form, the request converts, and the rounded result is finite and
    within 0.0055 of the exact conversion of the number read. *)
Theorem convert_accuracy (raw inputUnit outputUnit : string) :
  fin (JS.parseFloat raw) ->
  (Qabs (B64.to_Q (JS.parseFloat raw)) <= 1000000000)%Q ->
  In inputUnit units -> In outputUnit units -> inputUnit <> outputUnit ->
  exists r,
    convert raw inputUnit outputUnit = Converted r
    /\ fin r
    /\ (Qabs (B64.to_Q r
              - convertTo (B64.to_Q (JS.parseFloat raw)) inputUnit outputUnit)
        <= 55 # 10000)%Q.
Proof.
  intros Fv Hv HA HB Hne.
  exists (round2 (convertTo (JS.parseFloat raw) inputUnit outputUnit)).
  split.
  - unfold convert.
    assert (Hn : B64.isNaN (JS.parseFloat raw) = false)
      by (destruct Fv as [_ Ff]; destruct (JS.parseFloat raw);
          try discriminate Ff; reflexivity).
    destruct (String.eqb_spec raw "") as [->|_];
      [destruct Fv as [_ Ff]; discriminate Ff|].
    rewrite Hn. cbn [orb].
    destruct (String.eqb_spec inputUnit outputUnit) as [E|_];
      [contradiction|reflexivity].
  - apply Qabs_Qle_condition in Hv. destruct Hv as [Lv Uv].
    set (v := JS.parseFloat raw) in *. clearbody v.
    apply In_units in HA. apply In_units in HB.
    destruct HA as [-> | [-> | ->]]; destruct HB as [-> | [-> | ->]];
      try (exfalso; apply Hne; reflexivity);
      exact_ops; binary64_ops;
      lazymatch goal with
      | |- fin ?t /\ _ =>
          approx_of t;
          lazymatch goal with
          | H : approx t _ _ |- _ =>
              destruct H as [F [L U]]; split; [exact F|];
              apply Qabs_Qle_condition; unfold eps in L, U; split; lra
          end
      end.
Qed.

Lemma convert_accuracy_witness :
  exists r,
    convert "26.375" "fahrenheit" "celsius" = Converted r
    /\ fin r
    /\ (Qabs (B64.to_Q r
              - convertTo (B64.to_Q (JS.parseFloat "26.375"))
                  "fahrenheit" "celsius")
        <= 55 # 10000)%Q.
Proof.
  apply (convert_accuracy "26.375" "fahrenheit" "celsius");
    [split; vm_compute; reflexivity | vm_compute; discriminate
    | simpl; tauto | simpl; tauto | discriminate].
Defined.

(** X9: in exact arithmetic a conversion from A to B followed by one
    from B to C is the conversion from A to C, and converting back from B
    to A gives the starting value, for units of the form. *)
Theorem convertTo_exact_compose (x : Q) (A B C : string) :
  In A units -> In B units -> In C units ->
  (convertTo (convertTo x A B) B C == convertTo x A C)%Q
  /\ (convertTo (convertTo x A B) B A == x)%Q.
Proof.
  intros HA HB HC.
  apply In_units in HA. apply In_units in HB. apply In_units in HC.
  destruct HA as [-> | [-> | ->]]; destruct HB as [-> | [-> | ->]];
    (split;
     [destruct HC as [-> | [-> | ->]]; exact_ops; ring
     |exact_ops; ring]).
Qed.

Lemma convertTo_exact_compose_witness :
  (convertTo (convertTo 100 "celsius" "kelvin") "kelvin" "fahrenheit"
   == convertTo 100 "celsius" "fahrenheit")%Q
  /\ (convertTo (convertTo 100 "celsius" "kelvin") "kelvin" "celsius" == 100)%Q.
Proof.
  apply (convertTo_exact_compose 100 "celsius" "kelvin" "fahrenheit");
    simpl; tauto.
Defined.

(** ** The text of the field *)

Lemma trimStart_space (c : ascii) (s : string) :
  JS.is_space1 c = true -> JS.trimStart (String c s) = JS.trimStart s.
Proof. intros Hc. cbn [JS.trimStart]. rewrite Hc. reflexivity. Qed.

(** X10: a space, a tab or a line break in front of the text of the field
    changes neither the number read nor the outcome of the request. *)
Theorem leading_space_ignored (c : ascii) (raw inputUnit outputUnit : string) :
  JS.is_space1 c = true ->
  JS.parseFloat (String c raw) = JS.parseFloat raw
  /\ convert (String c raw) inputUnit outputUnit
     = convert raw inputUnit outputUnit.
Proof.
  intros Hc.
  assert (E : JS.parseFloat (String c raw) = JS.parseFloat raw).
  { unfold JS.parseFloat. rewrite (trimStart_space c raw Hc). reflexivity. }
  split; [exact E|].
  unfold convert. rewrite E.
  change (String c raw =? "")%string with false.
  destruct (String.eqb_spec raw "") as [->|_]; [|reflexivity].
  reflexivity.
Qed.

Lemma leading_space_ignored_witness :
  convert " 100" "celsius" "fahrenheit" = convert "100" "celsius" "fahrenheit".
Proof.
  exact (proj2 (leading_space_ignored " " "100" "celsius" "fahrenheit"
                  eq_refl)).
Defined.

Lemma scan_digits_stop (t : string) (acc n : Z) :
  stops_number t = true -> JS.scan_digits t acc n = (acc, n, t).
Proof.
  destruct t as [|c t]; [reflexivity|]. cbn [stops_number JS.scan_digits].
  destruct (JS.is_digit c); [discriminate|reflexivity].
Qed.

Lemma scan_digits_all (s : string) :
  all_digits s = true ->
  forall acc n, exists v,
    JS.scan_digits s acc n = (v, n + Z.of_nat (String.length s), ""%string).
Proof.
  induction s as [|c s IH]; intros Hs acc n.
  - exists acc. cbn. rewrite Z.add_0_r. reflexivity.
  - cbn [all_digits] in Hs. apply andb_prop in Hs. destruct Hs as [Hc Hs].
    cbn [JS.scan_digits String.length]. rewrite Hc.
    destruct (IH Hs (10 * acc + (JS.code c - 48)) (n + 1)) as [v Hv].
    exists v. rewrite Hv. f_equal. f_equal. lia.
Qed.

Lemma scan_digits_app (s t : string) :
  all_digits s = true -> stops_number t = true ->
  forall acc n v k r,
    JS.scan_digits s acc n = (v, k, r) ->
    JS.scan_digits (s ++ t) acc n = (v, k, t).
Proof.
  intros Hs Ht. induction s as [|c s IH]; intros acc n v k r H.
  - cbn in H. injection H as <- <- <-. apply scan_digits_stop, Ht.
  - cbn [all_digits] in Hs. apply andb_prop in Hs. destruct Hs as [Hc Hs].
    cbn [append JS.scan_digits] in *. rewrite Hc in *.
    apply (IH Hs _ _ _ _ _ H).
Qed.

Lemma digit_cases (c : ascii) :
  JS.is_digit c = true ->
  In c ["0"; "1"; "2"; "3"; "4"; "5"; "6"; "7"; "8"; "9"]%char.
Proof.
  destruct c as [[] [] [] [] [] [] [] []]; intros H;
    try discriminate H; cbn; tauto.
Qed.

Lemma trimStart_digit (c : ascii) (s : string) :
  JS.is_digit c = true -> JS.trimStart (String c s) = String c s.
Proof.
  intros Hc. apply digit_cases in Hc. cbn [In] in Hc.
  destruct s as [|b [|d s]];
    repeat (destruct Hc as [<-|Hc]; [reflexivity|]); destruct Hc.
Qed.

Lemma scan_exponent_stop (t : string) :
  stops_number t = true -> JS.scan_exponent t = 0.
Proof.
  destruct t as [|c t]; [reflexivity|]. cbn [stops_number JS.scan_exponent].
  intros H. apply andb_prop in H. destruct H as [H H3].
  apply andb_prop in H. destruct H as [_ H2].
  apply negb_true_iff in H2, H3. rewrite H2, H3. reflexivity.
Qed.

Lemma scan_unsigned_digits (c : ascii) (s t : string) :
  JS.is_digit c = true -> all_digits s = true -> stops_number t = true ->
  JS.scan_unsigned (String c s ++ t) = JS.scan_unsigned (String c s).
Proof.
  intros Hc Hs Ht.
  assert (Ha : all_digits (String c s) = true)
    by (cbn [all_digits]; rewrite Hc, Hs; reflexivity).
  destruct (scan_digits_all _ Ha 0 0) as [v Hv].
  pose proof (scan_digits_app _ t Ha Ht _ _ _ _ _ Hv) as Hvt.
  assert (Hk : (0 + Z.of_nat (String.length (String c s)) =? 0) = false)
    by (apply Z.eqb_neq; cbn [String.length]; lia).
  assert (Hp : forall r, prefix "Infinity" (String c r) = false).
  { intros r. apply digit_cases in Hc. cbn [In] in Hc.
    repeat (destruct Hc as [<-|Hc]; [reflexivity|]); destruct Hc. }
  unfold JS.scan_unsigned.
  change (String c s ++ t)%string with (String c (s ++ t)) at 1.
  rewrite !Hp.
  change (String c (s ++ t)) with (String c s ++ t)%string.
  rewrite Hv, Hvt, Hk.
  rewrite (scan_exponent_stop t Ht).
  destruct t as [|d t]; [reflexivity|].
  cbn [stops_number] in Ht.
  destruct (ascii_dec d ".") as [->|Hd]; [discriminate Ht|].
  destruct d as [[] [] [] [] [] [] [] []]; try reflexivity.
  exfalso. apply Hd. reflexivity.
Qed.

(** X11: after a text made of digits only, a rest that does not carry the
    number on (it is empty, or starts with something other than a digit,
    the point and the exponent letters) is ignored: the number read and
    the outcome are those of the digits alone. *)
Theorem trailing_text_ignored (digits rest inputUnit outputUnit : string) :
  digits <> ""%string -> all_digits digits = true ->
  stops_number rest = true ->
  JS.parseFloat (digits ++ rest) = JS.parseFloat digits
  /\ convert (digits ++ rest) inputUnit outputUnit
     = convert digits inputUnit outputUnit.
Proof.
  intros Hne Hd Hr. destruct digits as [|c s]; [contradiction|].
  cbn [all_digits] in Hd. apply andb_prop in Hd. destruct Hd as [Hc Hs].
  assert (E : JS.parseFloat (String c s ++ rest) = JS.parseFloat (String c s)).
  { unfold JS.parseFloat.
    change (String c s ++ rest)%string with (String c (s ++ rest)).
    rewrite !(trimStart_digit c _ Hc).
    change (String c (s ++ rest)) with (String c s ++ rest)%string.
    assert (El : JS.scan_literal (String c s ++ rest)
                 = JS.scan_literal (String c s)).
    { pose proof (scan_unsigned_digits c s rest Hc Hs Hr) as Eu.
      change (String c s ++ rest)%string with (String c (s ++ rest)) in *.
      apply digit_cases in Hc. cbn [In] in Hc.
      repeat (destruct Hc as [<-|Hc];
              [cbn [JS.scan_literal]; rewrite Eu; reflexivity|]).
      destruct Hc. }
    rewrite El. reflexivity. }
  split; [exact E|].
  unfold convert. rewrite E. reflexivity.
Qed.

Lemma trailing_text_ignored_witness :
  convert "12abc" "celsius" "kelvin" = convert "12" "celsius" "kelvin".
Proof.
  exact (proj2 (trailing_text_ignored "12" "abc" "celsius" "kelvin"
                  ltac:(discriminate) eq_refl eq_refl)).
Defined.

(** ** The symbols of the units *)

(** X12: a unit has the empty symbol exactly when it is none of the three
    units of the form, and two different units among the three have
    different symbols. *)
Theorem getUnitSymbol_units (u v : string) :
  (getUnitSymbol u = ""%string <-> ~ In u units)
  /\ (In u units -> In v units -> u <> v ->
      getUnitSymbol u <> getUnitSymbol v).
Proof.
  split.
  - unfold getUnitSymbol, units. cbn [In].
    destruct (String.eqb_spec u "celsius") as [->|H1];
      [split; [discriminate|intros H; exfalso; apply H; tauto]|].
    destruct (String.eqb_spec u "fahrenheit") as [->|H2];
      [split; [discriminate|intros H; exfalso; apply H; tauto]|].
    destruct (String.eqb_spec u "kelvin") as [->|H3];
      [split; [discriminate|intros H; exfalso; apply H; tauto]|].
    split; [|reflexivity].
    intros _ [E|[E|[E|[]]]]; symmetry in E; contradiction.
  - intros Hu Hv. apply In_units in Hu. apply In_units in Hv.
    destruct Hu as [-> | [-> | ->]]; destruct Hv as [-> | [-> | ->]];
      cbn; intros Hne E; try discriminate E; apply Hne; reflexivity.
Qed.

Lemma getUnitSymbol_units_witness :
  getUnitSymbol "celsius" <> getUnitSymbol "kelvin".
Proof.
  apply (proj2 (getUnitSymbol_units "celsius" "kelvin"));
    [simpl; tauto | simpl; tauto | discriminate].
Defined.

(** ** Calls and events on the page *)

Section PageFacts.

Variable NumberToString : B64.number -> string.

Local Open Scope string_scope.

(** X13: when both radio groups have a checked button the call ends
    normally and shows exactly one message: the success message when the
    request converts, the error message when it does not; the other one
    is hidden and empty. *)
Theorem one_message_shown (page : Page) (inputUnit outputUnit : string) :
  inputUnitChecked page = Some inputUnit ->
  outputUnitChecked page = Some outputUnit ->
  let after := snd (convertTemperature NumberToString page) in
  fst (convertTemperature NumberToString page) = Normal
  /\ show (errorMessage after) = negb (show (successMessage after))
  /\ (show (successMessage after) = true
      <-> exists r, convert (temperatureInput page) inputUnit outputUnit
                    = Converted r)
  /\ (show (successMessage after) = true ->
      errorMessage after = {| textContent := ""; show := false |})
  /\ (show (errorMessage after) = true ->
      successMessage after = {| textContent := ""; show := false |}).
Proof.
  intros Hi Ho after. subst after.
  rewrite (convertTemperature_convert NumberToString page _ _ Hi Ho).
  cbn [fst snd].
  destruct (convert (temperatureInput page) inputUnit outputUnit)
    as [r|[|]]; cbn.
  - repeat split; try reflexivity; try discriminate. intros _. exists r. reflexivity.
  - repeat split; try reflexivity; try discriminate.
    intros [r Hr]. discriminate Hr.
  - repeat split; try reflexivity; try discriminate.
    intros [r Hr]. discriminate Hr.
Qed.

(** X14: a request that fails leaves the two displays as they were, so
    the result of an earlier conversion stays on the page; a request that
    converts writes both: the input display shows the number read from
    the field, not its text, and the output display the rounded result,
    each followed by the degree sign and the symbol of its unit. *)
Theorem displays_after_call (page : Page) (inputUnit outputUnit : string) :
  inputUnitChecked page = Some inputUnit ->
  outputUnitChecked page = Some outputUnit ->
  let after := snd (convertTemperature NumberToString page) in
  (forall e, convert (temperatureInput page) inputUnit outputUnit = Failed e ->
     inputDisplay after = inputDisplay page
     /\ outputDisplay after = outputDisplay page)
  /\ (forall r, convert (temperatureInput page) inputUnit outputUnit
                = Converted r ->
     inputDisplay after
     = NumberToString (JS.parseFloat (temperatureInput page))
       ++ "°" ++ getUnitSymbol inputUnit
     /\ outputDisplay after
        = NumberToString r ++ "°" ++ getUnitSymbol outputUnit).
Proof.
  intros Hi Ho after. subst after.
  rewrite (convertTemperature_convert NumberToString page _ _ Hi Ho).
  cbn [snd].
  destruct (convert (temperatureInput page) inputUnit outputUnit)
    as [r|[|]]; cbn; split; intros x Hx; try discriminate Hx;
    try (split; reflexivity).
  injection Hx as <-. split; reflexivity.
Qed.

(** X15: the call throws exactly when a radio group has no checked
    button, whatever the field holds; it has then cleared the messages and
    written nothing else. *)
Theorem missing_selection_throws (page : Page) :
  (fst (convertTemperature NumberToString page) = TypeError
   <-> inputUnitChecked page = None \/ outputUnitChecked page = None)
  /\ (fst (convertTemperature NumberToString page) = TypeError ->
      snd (convertTemperature NumberToString page) = clearMessages page).
Proof.
  unfold convertTemperature.
  cbn [clearMessages temperatureInput inputUnitChecked outputUnitChecked].
  destruct (inputUnitChecked page) as [i|];
    [|cbn; split; [split; [left|]; reflexivity|reflexivity]].
  destruct (outputUnitChecked page) as [o|];
    [|cbn; split; [split; [right|]; reflexivity|reflexivity]].
  destruct ((temperatureInput page =? "") || B64.isNaN _);
    [cbn; split; [split; [discriminate|intros [H|H]; discriminate H]
                 |discriminate]|].
  destruct (i =? o); cbn;
    (split; [split; [discriminate|intros [H|H]; discriminate H]|discriminate]).
Qed.

Lemma tidy_convertTemperature (page : Page) :
  tidy NumberToString (snd (convertTemperature NumberToString page)).
Proof.
  unfold tidy, convertTemperature.
  cbn [clearMessages temperatureInput inputUnitChecked outputUnitChecked].
  destruct (inputUnitChecked page) as [i|];
    [|cbn; repeat split; try reflexivity; discriminate].
  destruct (outputUnitChecked page) as [o|];
    [|cbn; repeat split; try reflexivity; discriminate].
  destruct ((temperatureInput page =? "") || B64.isNaN _) eqn:Hn;
    [cbn; repeat split; try reflexivity; discriminate|].
  destruct (i =? o);
    [cbn; repeat split; try reflexivity; discriminate|].
  apply orb_false_iff in Hn. destruct Hn as [He Hn].
  cbn. repeat split; try reflexivity; try discriminate.
  - intros E. rewrite E in He. discriminate He.
  - exact Hn.
  - exists (getUnitSymbol i). reflexivity.
Qed.

(** X16: whatever happens on the page, in any order (clicks, key presses,
    edits of the field, changes of the checked units), the messages stay
    in agreement: never both shown, a hidden message empty, and the
    success message shown only while the field holds a text that reads as
    a number, the one the input display shows. *)
Theorem events_keep_tidy (events : list Event) (page : Page) :
  tidy NumberToString page ->
  tidy NumberToString (dispatchAll NumberToString events page).
Proof.
  revert page. induction events as [|event events IH]; intros page Ht;
    [exact Ht|].
  cbn [dispatchAll fold_left]. apply IH.
  destruct event as [|key|value|unit|unit]; cbn [dispatch].
  - apply tidy_convertTemperature.
  - destruct (key =? "Enter"); [apply tidy_convertTemperature|exact Ht].
  - cbn. unfold tidy. cbn. repeat split; try reflexivity; discriminate.
  - exact Ht.
  - exact Ht.
Qed.

End PageFacts.

Lemma one_message_shown_witness :
  let fmt := fun _ : B64.number => "-"%string in
  let page :=
    {| temperatureInput := "100"; inputUnitChecked := Some "celsius"%string;
       outputUnitChecked := Some "celsius"%string;
       errorMessage := {| textContent := ""; show := false |};
       successMessage :=
         {| textContent := "✓ Temperature converted successfully!";
            show := true |};
       inputDisplay := "5°K"; outputDisplay := "-268.15°C" |} in
  show (errorMessage (snd (convertTemperature fmt page)))
  = negb (show (successMessage (snd (convertTemperature fmt page)))).
Proof.
  intros fmt page.
  exact (proj1 (proj2 (one_message_shown fmt page "celsius" "celsius"
                         eq_refl eq_refl))).
Defined.

Lemma displays_after_call_witness :
  let fmt := fun _ : B64.number => "-"%string in
  let page :=
    {| temperatureInput := "abc"; inputUnitChecked := Some "celsius"%string;
       outputUnitChecked := Some "kelvin"%string;
       errorMessage := {| textContent := ""; show := false |};
       successMessage :=
         {| textContent := "✓ Temperature converted successfully!";
            show := true |};
       inputDisplay := "5°K"; outputDisplay := "-268.15°C" |} in
  inputDisplay (snd (convertTemperature fmt page)) = "5°K"%string
  /\ outputDisplay (snd (convertTemperature fmt page)) = "-268.15°C"%string.
Proof.
  intros fmt page.
  apply (proj1 (displays_after_call fmt page "celsius" "kelvin"
                  eq_refl eq_refl) InvalidNumber).
  reflexivity.
Defined.

Lemma missing_selection_throws_witness :
  let fmt := fun _ : B64.number => "-"%string in
  let page :=
    {| temperatureInput := "100"; inputUnitChecked := None;
       outputUnitChecked := Some "kelvin"%string;
       errorMessage :=
         {| textContent := "❌ Please enter a valid number"; show := true |};
       successMessage := {| textContent := ""; show := false |};
       inputDisplay := "5°K"; outputDisplay := "-268.15°C" |} in
  snd (convertTemperature fmt page) = clearMessages page.
Proof.
  intros fmt page.
  apply (proj2 (missing_selection_throws fmt page)).
  apply (proj2 (proj1 (missing_selection_throws fmt page))).
  left. reflexivity.
Defined.

Lemma events_keep_tidy_witness :
  let fmt := fun _ : B64.number => "-"%string in
  let page :=
    {| temperatureInput := ""; inputUnitChecked := Some "celsius"%string;
       outputUnitChecked := Some "fahrenheit"%string;
       errorMessage := {| textContent := ""; show := false |};
       successMessage := {| textContent := ""; show := false |};
       inputDisplay := "--"; outputDisplay := "--" |} in
  tidy fmt
    (dispatchAll fmt
       [Input "1"; Input "10"; Keypress "Enter"; CheckOutput "celsius";
        Click; Input "10 "; CheckInput "kelvin"; Click]
       page).
Proof.
  intros fmt page. apply events_keep_tidy.
  unfold tidy. cbn. repeat split; try reflexivity; discriminate.
Defined.
